(** * Verification of the watcher-daemon rule engine

    Shallow embedding of the deterministic core of the watcher daemon:
    - [RuleEngine.ts]      : [matchesFilter], [evaluateRule], [evaluateEvent];
    - [intent.ts]          : [extractIntent] (with the regular expressions it
                             uses, run by a small backtracking matcher);
    - [RuleCompiler.ts]    : [alignRuleToIntent];
    - [RuleValidator.ts]   : [validateCompiledRule];
    - [RuleStore.js]       : [normalizeArray], [ruleSignatureFromCompiled],
                             [updateRule] and the promise chain of [save].

    JavaScript strings are sequences of UTF-16 code units, modelled as
    [list Z]; [u] turns an ASCII literal into such a sequence. *)

From Stdlib Require Import ZArith List Bool Ascii String Lia Sorting.Sorted.
From stdpp Require Import base gmap list.
Import ListNotations.
Open Scope Z_scope.

(* ------------------------------------------------------------------ *)
(** ** JavaScript strings *)

Definition jsstr := list Z.

Definition u (s : string) : jsstr :=
  map (fun c => Z.of_nat (nat_of_ascii c)) (list_ascii_of_string s).

(** [String.prototype.toLowerCase] on the Basic Latin and Latin-1 letters
    (A-Z and U+00C0..U+00DE except U+00D7); other code units are left
    unchanged. *)
Definition lowerUnit (c : Z) : Z :=
  if (65 <=? c) && (c <=? 90) then c + 32
  else if (192 <=? c) && (c <=? 222) && negb (c =? 215) then c + 32
  else c.

Definition toLowerCase (s : jsstr) : jsstr := map lowerUnit s.

Fixpoint startsWith (s p : jsstr) : bool :=
  match p, s with
  | [], _ => true
  | c :: p', d :: s' => (c =? d) && startsWith s' p'
  | _ :: _, [] => false
  end.

(** [s.includes(p)]: [p] occurs in [s] at some index. *)
Fixpoint includes (s p : jsstr) : bool :=
  startsWith s p || match s with [] => false | _ :: s' => includes s' p end.

Definition jsstr_eqb (a b : jsstr) : bool :=
  if decide (a = b) then true else false.

(** [Array.prototype.includes] on strings. *)
Definition str_mem (x : jsstr) (xs : list jsstr) : bool :=
  existsb (jsstr_eqb x) xs.

(** [String.prototype.slice(a, b)] for 0 <= a <= b. *)
Definition slice (s : jsstr) (a b : Z) : jsstr :=
  firstn (Z.to_nat (b - a)) (skipn (Z.to_nat a) s).

(** Decimal rendering of an integral JavaScript number. *)
Fixpoint digits_of_nat (fuel : nat) (n : nat) (acc : jsstr) : jsstr :=
  match fuel with
  | O => acc
  | S f =>
      let d := Z.of_nat (Nat.modulo n 10) + 48 in
      let q := Nat.div n 10 in
      if Nat.eqb q 0 then d :: acc else digits_of_nat f q (d :: acc)
  end.

Definition numToString (z : Z) : jsstr :=
  if z <? 0 then 45 :: digits_of_nat (S (Z.to_nat (- z))) (Z.to_nat (- z)) []
  else digits_of_nat (S (Z.to_nat z)) (Z.to_nat z) [].

(** [xs.join(sep)]. *)
Fixpoint join (sep : jsstr) (xs : list jsstr) : jsstr :=
  match xs with
  | [] => []
  | [x] => x
  | x :: xs' => x ++ sep ++ join sep xs'
  end.

(* ------------------------------------------------------------------ *)
(** ** [path.extname] (Node's posix implementation) *)

(** The backward scan of [extname]: [i] is the index of the head of the
    reversed list; returns [(startDot, startPart, end, preDotState)]. *)
Fixpoint extname_scan (rev : list Z) (i startDot startPart end_ : Z)
    (matchedSlash : bool) (preDotState : Z) : Z * Z * Z * Z :=
  match rev with
  | [] => (startDot, startPart, end_, preDotState)
  | code :: rest =>
      if code =? 47 then
        if negb matchedSlash then (startDot, i + 1, end_, preDotState)
        else extname_scan rest (i - 1) startDot startPart end_ matchedSlash preDotState
      else
        let '(end', matched') :=
          if end_ =? -1 then (i + 1, false) else (end_, matchedSlash) in
        if code =? 46 then
          if startDot =? -1 then
            extname_scan rest (i - 1) i startPart end' matched' preDotState
          else if negb (preDotState =? 1) then
            extname_scan rest (i - 1) startDot startPart end' matched' 1
          else extname_scan rest (i - 1) startDot startPart end' matched' preDotState
        else if negb (startDot =? -1) then
          extname_scan rest (i - 1) startDot startPart end' matched' (-1)
        else extname_scan rest (i - 1) startDot startPart end' matched' preDotState
  end.

Definition extname (p : jsstr) : jsstr :=
  let '(startDot, startPart, end_, preDotState) :=
    extname_scan (rev p) (Z.of_nat (length p) - 1) (-1) 0 (-1) true 0 in
  if (startDot =? -1) || (end_ =? -1) || (preDotState =? 0)
     || ((preDotState =? 1) && (startDot =? end_ - 1) && (startDot =? startPart + 1))
  then []
  else slice p startDot end_.

(* ------------------------------------------------------------------ *)
(** ** Data model ([rules/types.ts], [watcher/types.ts], [llm/types.ts]) *)

Inductive EventType := Created | Modified | Deleted.

Definition EventType_eqb (a b : EventType) : bool :=
  match a, b with
  | Created, Created | Modified, Modified | Deleted, Deleted => true
  | _, _ => false
  end.

Definition eventTypeName (e : EventType) : jsstr :=
  match e with
  | Created => u "created" | Modified => u "modified" | Deleted => u "deleted"
  end.

Record FileEvent := mkEvent {
  ev_type : EventType;
  ev_path : jsstr;
  ev_timestamp : Z
}.

(** [MatchFilter]: every field optional ([None] is an absent property). *)
Record MatchFilter := mkMatch {
  pathIncludes : option (list jsstr);
  pathExcludes : option (list jsstr);
  extensions : option (list jsstr);
  eventTypes : option (list EventType)
}.

Inductive RuleType := RTPattern | RTThreshold.

(** [Rule = PatternRule | ThresholdRule]: the threshold variant carries
    its [windowSeconds] and [count]. *)
Inductive RuleKind :=
| PatternRule
| ThresholdRule (windowSeconds count : Z).

Inductive RuleSource := SrcLLM | SrcManual.

Record Rule := mkRule {
  r_id : jsstr;
  r_name : jsstr;
  r_description : jsstr;
  r_enabled : bool;
  r_createdAt : Z;
  r_lastMatched : option Z;
  r_matchCount : Z;
  r_kind : RuleKind;
  r_match : MatchFilter;
  r_source : RuleSource;
  r_originalCondition : option jsstr
}.

Definition ruleType (r : Rule) : RuleType :=
  match r_kind r with PatternRule => RTPattern | ThresholdRule _ _ => RTThreshold end.

Record RuleMatch := mkRuleMatch {
  m_ruleId : jsstr;
  m_ruleName : jsstr;
  m_ruleType : RuleType;
  m_timestamp : Z;
  m_summary : jsstr;
  m_reason : option jsstr;
  m_path : option jsstr;
  m_eventType : option EventType;
  m_count : option Z;
  m_windowSeconds : option Z
}.

(* ------------------------------------------------------------------ *)
(** ** [RuleEngine.matchesFilter] and [RuleEngine.describeFilter] *)

Definition nonEmpty {A} (o : option (list A)) : option (list A) :=
  match o with Some (_ :: _) as s => s | _ => None end.

Definition matchesFilter (event : FileEvent) (match_ : MatchFilter) : bool :=
  let normalizedPath := toLowerCase (ev_path event) in
  let excluded :=
    match nonEmpty (pathExcludes match_) with
    | Some xs => existsb (fun exc => includes normalizedPath (toLowerCase exc)) xs
    | None => false
    end in
  if excluded then false else
  let included :=
    match nonEmpty (pathIncludes match_) with
    | Some xs => existsb (fun inc => includes normalizedPath (toLowerCase inc)) xs
    | None => true
    end in
  if negb included then false else
  let extOk :=
    match nonEmpty (extensions match_) with
    | Some xs =>
        let extension := toLowerCase (extname (ev_path event)) in
        let allowed := map toLowerCase xs in
        str_mem extension allowed
    | None => true
    end in
  if negb extOk then false else
  match nonEmpty (eventTypes match_) with
  | Some ts => existsb (EventType_eqb (ev_type event)) ts
  | None => true
  end.

Definition describeFilter (match_ : MatchFilter) : jsstr :=
  let parts :=
    (match nonEmpty (extensions match_) with
     | Some xs => [u "files with " ++ join (u ", ") xs] | None => [] end) ++
    (match nonEmpty (pathIncludes match_) with
     | Some xs => [u "paths including " ++ join (u ", ") xs] | None => [] end) ++
    (match nonEmpty (eventTypes match_) with
     | Some ts => [u "events " ++ join (u ", ") (map eventTypeName ts)] | None => [] end) in
  match parts with
  | [] => u "events"
  | _ => join (u " and ") parts
  end.

(* ------------------------------------------------------------------ *)
(** ** [RuleEngine.evaluateRule]

    [thresholdWindows] is the engine's [Map<string, number[]>]; [now] is the
    value of [Date.now()] read during the call. *)

Abbreviation Windows := (gmap jsstr (list Z)).

(** One threshold step on a rule's window list: push [now], keep the
    entries with [now - t <= windowMs]; fires when at least [count] remain. *)
Definition threshold_step (windowSeconds count now : Z) (timestamps : list Z)
    : bool * list Z * list Z :=
  let windowMs := windowSeconds * 1000 in
  let pushed := timestamps ++ [now] in
  let filtered := List.filter (fun t => now - t <=? windowMs) pushed in
  if count <=? Z.of_nat (length filtered) then (true, filtered, [])
  else (false, filtered, filtered).

Definition evaluateRule (event : FileEvent) (rule : Rule) (now : Z)
    (thresholdWindows : Windows) : option RuleMatch * Windows :=
  if negb (matchesFilter event (r_match rule)) then (None, thresholdWindows) else
  match r_kind rule with
  | PatternRule =>
      let reason := u "File " ++ ev_path event ++ u " was " ++ eventTypeName (ev_type event) in
      (Some (mkRuleMatch (r_id rule) (r_name rule) RTPattern now reason (Some reason)
               (Some (ev_path event)) (Some (ev_type event)) None None),
       thresholdWindows)
  | ThresholdRule windowSeconds count =>
      let timestamps := default [] (thresholdWindows !! r_id rule) in
      let '(fire, filtered, stored) := threshold_step windowSeconds count now timestamps in
      let tw := <[r_id rule := stored]> thresholdWindows in
      if fire then
        let n := Z.of_nat (length filtered) in
        let reason := numToString n ++ u " " ++ describeFilter (r_match rule)
                      ++ u " in the last " ++ numToString windowSeconds
                      ++ u "s (threshold: " ++ numToString count ++ u ")" in
        (Some (mkRuleMatch (r_id rule) (r_name rule) RTThreshold now reason (Some reason)
                 None None (Some n) (Some windowSeconds)), tw)
      else (None, tw)
  end.

Definition isSome {A} (o : option A) : bool :=
  match o with Some _ => true | None => false end.

(** A sequence of calls of [evaluateRule] for one rule: each event comes with
    the [Date.now()] reading of its evaluation; the result lists, per event,
    whether the rule fired. *)
Fixpoint fires (rule : Rule) (evs : list (FileEvent * Z)) (tw : Windows) : list bool :=
  match evs with
  | [] => []
  | (e, now) :: evs' =>
      let '(m, tw') := evaluateRule e rule now tw in
      isSome m :: fires rule evs' tw'
  end.

(** The threshold behaviour as the specification words it: [since] holds the
    timestamps of the qualifying events seen since the last firing; a
    qualifying event fires when at least [count] of those events (itself
    included) lie within [windowSeconds] of it, and a firing starts afresh. *)
Fixpoint spec_threshold_fires (qualifies : FileEvent -> bool) (windowSeconds count : Z)
    (since : list Z) (evs : list (FileEvent * Z)) : list bool :=
  match evs with
  | [] => []
  | (e, now) :: evs' =>
      if qualifies e then
        let retained := List.filter (fun t => now - t <=? windowSeconds * 1000) (since ++ [now]) in
        if count <=? Z.of_nat (length retained)
        then true :: spec_threshold_fires qualifies windowSeconds count [] evs'
        else false :: spec_threshold_fires qualifies windowSeconds count (since ++ [now]) evs'
      else false :: spec_threshold_fires qualifies windowSeconds count since evs'
  end.

Definition opt_list {A} (o : option (list A)) : list A :=
  match o with Some l => l | None => [] end.

(** Concrete rules and events of the specification's examples. *)
Definition ex_pattern_rule : Rule :=
  mkRule (u "rule_p") (u "ts sources") (u "") true 0 None 0 PatternRule
    (mkMatch (Some [u "src/"]) None (Some [u ".ts"]) (Some [Created]))
    SrcLLM None.

Definition ex_threshold_rule : Rule :=
  mkRule (u "rule_t") (u "burst") (u "") true 0 None 0 (ThresholdRule 60 3)
    (mkMatch None None (Some [u ".ts"]) None) SrcLLM None.

(* ------------------------------------------------------------------ *)
(** ** Regular expressions

    The fragment of JavaScript regular expressions used by [intent.ts],
    matched with the backtracking semantics of ECMAScript: ordered
    alternation, greedy repetition that stops on an empty iteration,
    [\b] word boundaries and numbered capture groups. [REmpty] matches the
    empty string, [RChar p] one code unit satisfying [p]. *)

Inductive regex :=
| REmpty
| RChar (p : Z -> bool)
| RSeq (r1 r2 : regex)
| RAlt (r1 r2 : regex)
| RStar (r : regex)
| RBound
| RGroup (n : nat) (r : regex).

Definition captures := list (nat * (nat * nat)).

Definition isWordChar (c : Z) : bool :=
  ((48 <=? c) && (c <=? 57)) || ((65 <=? c) && (c <=? 90)) ||
  ((97 <=? c) && (c <=? 122)) || (c =? 95).

Definition wordAt (s : jsstr) (i : nat) : bool :=
  match nth_error s i with Some c => isWordChar c | None => false end.

Definition isBoundary (s : jsstr) (i : nat) : bool :=
  xorb (match i with O => false | S j => wordAt s j end) (wordAt s i).

(** [rmatch r s i c k]: match [r] on [s] at index [i] with captures [c],
    passing the end index and captures to the continuation [k]. A starred
    iteration that consumes nothing fails, as in ECMAScript; every other
    iteration advances, so [length s - i + 1] rounds always suffice. *)
Fixpoint rmatch (r : regex) (s : jsstr) (i : nat) (c : captures)
    (k : nat -> captures -> option (nat * captures)) {struct r}
    : option (nat * captures) :=
  match r with
  | REmpty => k i c
  | RChar p =>
      match nth_error s i with
      | Some x => if p x then k (S i) c else None
      | None => None
      end
  | RSeq r1 r2 => rmatch r1 s i c (fun j c' => rmatch r2 s j c' k)
  | RAlt r1 r2 =>
      match rmatch r1 s i c k with
      | Some res => Some res
      | None => rmatch r2 s i c k
      end
  | RStar r1 =>
      (fix star (fuel : nat) (i : nat) (c : captures) : option (nat * captures) :=
         match fuel with
         | O => k i c
         | S f =>
             match rmatch r1 s i c (fun j c' => if Nat.leb j i then None else star f j c') with
             | Some res => Some res
             | None => k i c
             end
         end) (S (length s - i)) i c
  | RBound => if isBoundary s i then k i c else None
  | RGroup n r1 => rmatch r1 s i c (fun j c' => k j ((n, (i, j)) :: c'))
  end.

(** [RegExpBuiltinExec] from [lastIndex = start]: the first index at which
    the expression matches, with the match's end and its captures. *)
Fixpoint exec_from (fuel : nat) (r : regex) (s : jsstr) (i : nat)
    : option (nat * nat * captures) :=
  match fuel with
  | O => None
  | S f =>
      match rmatch r s i [] (fun j c => Some (j, c)) with
      | Some (j, c) => Some (i, j, c)
      | None => if Nat.ltb i (length s) then exec_from f r s (S i) else None
      end
  end.

Definition exec (r : regex) (s : jsstr) (start : nat) : option (nat * nat * captures) :=
  if Nat.ltb (length s) start then None
  else exec_from (S (length s - start)) r s start.

(** [regex.test(s)] and [s.match(regex)] for a regex without the [g] flag. *)
Definition test (r : regex) (s : jsstr) : bool := isSome (exec r s 0).

(** [s.matchAll(regex)] for a regex with the [g] flag. *)
Fixpoint matchAll_from (fuel : nat) (r : regex) (s : jsstr) (lastIndex : nat)
    : list (nat * nat * captures) :=
  match fuel with
  | O => []
  | S f =>
      match exec r s lastIndex with
      | None => []
      | Some (i, j, c) =>
          (i, j, c) :: matchAll_from f r s (if Nat.eqb j i then S j else j)
      end
  end.

Definition matchAll (r : regex) (s : jsstr) : list (nat * nat * captures) :=
  matchAll_from (S (S (length s))) r s 0.

(** [match[n]] of a match result. *)
Definition group (s : jsstr) (m : nat * nat * captures) (n : nat) : option jsstr :=
  let '(i, j, c) := m in
  match n with
  | O => Some (slice s (Z.of_nat i) (Z.of_nat j))
  | _ =>
      match List.find (fun p => Nat.eqb (fst p) n) c with
      | Some (_, (a, b)) => Some (slice s (Z.of_nat a) (Z.of_nat b))
      | None => None
      end
  end.

(** Building blocks. With the [i] flag, a class of ASCII characters also
    matches the upper-case letters, which [ci] expresses. *)
Definition chr (x : Z) : regex := RChar (Z.eqb x).
Definition ci (p : Z -> bool) : Z -> bool := fun c => p (lowerUnit c).
Definition chr_ci (x : Z) : regex := RChar (ci (Z.eqb x)).

Fixpoint seqs (l : list regex) : regex :=
  match l with [] => REmpty | [r] => r | r :: l' => RSeq r (seqs l') end.

Fixpoint alts (l : list regex) : regex :=
  match l with [] => RChar (fun _ => false) | [r] => r | r :: l' => RAlt r (alts l') end.

Definition lit (s : string) : regex := seqs (map chr (u s)).
Definition lit_ci (s : string) : regex := seqs (map chr_ci (u s)).
Definition plus (r : regex) : regex := RSeq r (RStar r).
Definition opt (r : regex) : regex := RAlt r REmpty.

Fixpoint upto (n : nat) (r : regex) : regex :=
  match n with O => REmpty | S m => opt (RSeq r (upto m r)) end.

(** [r{1,n}] *)
Definition rep1to (n : nat) (r : regex) : regex := RSeq r (upto (n - 1) r).

Definition isDigit (c : Z) : bool := (48 <=? c) && (c <=? 57).

(** [\s]: WhiteSpace and LineTerminator code units. *)
Definition isSpace (c : Z) : bool :=
  existsb (Z.eqb c) [9; 10; 11; 12; 13; 32; 160; 5760; 8232; 8233; 8239; 8287; 12288; 65279]
  || ((8192 <=? c) && (c <=? 8202)).

Definition isLowerAlnum (c : Z) : bool := ((97 <=? c) && (c <=? 122)) || isDigit c.

(** [[a-z0-9_.-]] *)
Definition isPathChar (c : Z) : bool := isLowerAlnum c || (c =? 95) || (c =? 46) || (c =? 45).

Definition digit : regex := RChar isDigit.
Definition sp : regex := RChar isSpace.

(** The [\b(w1|w2|...)\b] keyword tests of [extractIntent]. *)
Definition keywords (ws : list string) : regex :=
  seqs [RBound; RGroup 1 (alts (map lit ws)); RBound].

(** [word] followed by an optional [s]: [files?]. *)
Definition lit_s_ci (w : string) : regex := RSeq (lit_ci w) (opt (chr_ci 115)).

(* ------------------------------------------------------------------ *)
(** ** [intent.ts] *)

Record RuleIntent := mkIntent {
  ri_eventTypes : list EventType;
  ri_extensions : list jsstr;
  ri_pathIncludes : list jsstr;
  ri_count : option Z;
  ri_windowSeconds : option Z
}.

Definition EVENT_ORDER : list EventType := [Created; Modified; Deleted].

Definition LANGUAGE_EXTENSIONS : list (jsstr * list jsstr) :=
  map (fun p => (u (fst p), map u (snd p)))
  [("typescript", [".ts"; ".tsx"]); ("javascript", [".js"; ".jsx"]);
   ("python", [".py"]); ("markdown", [".md"; ".markdown"]); ("json", [".json"]);
   ("yaml", [".yml"; ".yaml"]); ("yml", [".yml"; ".yaml"]); ("html", [".html"; ".htm"]);
   ("css", [".css"]); ("text", [".txt"]); ("csv", [".csv"]); ("java", [".java"]);
   ("rust", [".rs"]); ("go", [".go"]); ("kotlin", [".kt"; ".kts"]); ("csharp", [".cs"]);
   ("c#", [".cs"]); ("cplusplus", [".cpp"; ".hpp"; ".h"]); ("c++", [".cpp"; ".hpp"; ".h"]);
   ("c", [".c"; ".h"])]%string.

Definition STOPWORDS : list jsstr :=
  map u ["the"; "a"; "an"; "this"; "that"; "these"; "those"; "inside"; "within";
         "under"; "from"; "in"; "on"; "at"; "to"; "of"; "for"; "with"; "without";
         "folder"; "directory"; "dir"; "root"; "path"; "file"; "files"; "any"]%string.

(** [token.replace(/\\/g, '/')], then a trailing [/] if missing. *)
Definition normalizePathToken (token : jsstr) : jsstr :=
  let normalized := map (fun c => if c =? 92 then 47 else c) token in
  match last normalized with
  | Some c => if c =? 47 then normalized else normalized ++ [47]
  | None => normalized ++ [47]
  end.

(** [token.replace(/[\\/]+$/, '')]: drops the trailing run of slashes. *)
Fixpoint dropWhile (p : Z -> bool) (l : list Z) : list Z :=
  match l with [] => [] | x :: l' => if p x then dropWhile p l' else l end.

Definition stripTrailingSlashes (token : jsstr) : jsstr :=
  rev (dropWhile (fun c => (c =? 92) || (c =? 47)) (rev token)).

Definition isStopwordToken (token : jsstr) : bool :=
  let cleaned := toLowerCase (stripTrailingSlashes token) in
  match cleaned with
  | [] => true
  | _ => forallb isDigit cleaned || str_mem cleaned STOPWORDS
  end.

Definition LANGUAGE_MATCHERS : list (jsstr * regex) :=
  map (fun k => (u k, seqs [RBound; lit k; RBound]))
  ["typescript"; "javascript"; "python"; "markdown"; "json"; "yaml"; "yml"; "html";
   "css"; "text"; "csv"; "java"; "rust"; "go"; "kotlin"; "csharp"; "c#";
   "cplusplus"; "c++"; "c"]%string.

(** [Number(s)] on a string of decimal digits. *)
Definition digitsToZ (s : jsstr) : Z := fold_left (fun acc d => acc * 10 + (d - 48)) s 0.

Definition threshold_patterns : list regex :=
  [ seqs [RBound;
          alts [seqs [lit_ci "at"; plus sp; lit_ci "least"];
                seqs [lit_ci "no"; plus sp; lit_ci "less"; plus sp; lit_ci "than"];
                lit ">="];
          RStar sp; RGroup 1 (plus digit); RBound];
    seqs [RBound; RGroup 1 (plus digit); RStar sp;
          alts [seqs [lit_ci "or"; plus sp; lit_ci "more"];
                seqs [lit_ci "or"; plus sp; lit_ci "greater"];
                seqs [lit_ci "or"; plus sp; lit_ci "above"];
                seqs [lit_ci "or"; plus sp; lit_ci "over"];
                chr 43];
          RStar sp;
          opt (alts [lit_s_ci "file"; lit_s_ci "event"; lit_s_ci "change"; lit_s_ci "time"]);
          RBound];
    seqs [RBound; RGroup 1 (plus digit); plus sp;
          alts [lit_s_ci "file"; lit_s_ci "event"; lit_s_ci "change"]; RBound] ].

Fixpoint first_count (pats : list regex) (text : jsstr) : option Z :=
  match pats with
  | [] => None
  | p :: pats' =>
      match exec p text 0 with
      | Some m =>
          let count := digitsToZ (default [] (group text m 1)) in
          if 0 <? count then Some count else first_count pats' text
      | None => first_count pats' text
      end
  end.

Definition parseThresholdCount (text : jsstr) : option Z :=
  first_count threshold_patterns text.

Definition window_pattern : regex :=
  seqs [RBound;
        alts (map lit_ci ["within"; "in"; "over"; "during"; "for"]%string);
        plus sp; RGroup 1 (plus digit); RStar sp;
        RGroup 2 (alts [lit_s_ci "second"; lit_s_ci "sec"; lit_s_ci "minute";
                        lit_s_ci "min"; lit_s_ci "hour"; lit_s_ci "hr"]);
        RBound].

Definition parseWindowSeconds (text : jsstr) : option Z :=
  match exec window_pattern text 0 with
  | None => None
  | Some m =>
      let value := digitsToZ (default [] (group text m 1)) in
      if value <=? 0 then None else
      let unit := toLowerCase (default [] (group text m 2)) in
      if startsWith unit (u "hour") || startsWith unit (u "hr") then Some (value * 3600)
      else if startsWith unit (u "min") then Some (value * 60)
      else Some value
  end.

Definition re_delete : regex :=
  keywords ["delete"; "deleted"; "deleting"; "remove"; "removed"; "unlink"]%string.
Definition re_create : regex :=
  keywords ["create"; "created"; "creating"; "creates"; "add"; "added"; "new"]%string.
Definition re_modify : regex :=
  keywords ["modify"; "modified"; "modifying"; "update"; "updated"; "updating";
            "edit"; "edited"; "editing"]%string.
Definition re_change : regex :=
  keywords ["change"; "changed"; "changes"; "changing"]%string.

(** [/\.[a-z0-9]{1,6}\b/g] *)
Definition re_extension : regex := seqs [chr 46; rep1to 6 (RChar isLowerAlnum); RBound].

(** [/([a-z0-9_.-]+[\\/])/gi] *)
Definition re_path : regex :=
  RGroup 1 (RSeq (plus (RChar (ci isPathChar))) (RChar (fun c => (c =? 92) || (c =? 47)))).

(** [/\b(in|from|under|inside|within)\s+(?:the|a|an)?\s*([a-z0-9_.-]+)\b/gi] *)
Definition re_phrase : regex :=
  seqs [RBound;
        RGroup 1 (alts (map lit_ci ["in"; "from"; "under"; "inside"; "within"]%string));
        plus sp;
        opt (alts (map lit_ci ["the"; "a"; "an"]%string));
        RStar sp;
        RGroup 2 (plus (RChar (ci isPathChar)));
        RBound].

(** [Set.prototype.add] on an insertion-ordered set. *)
Definition set_add (x : jsstr) (l : list jsstr) : list jsstr :=
  if str_mem x l then l else l ++ [x].

Definition ev_mem (e : EventType) (l : list EventType) : bool :=
  existsb (EventType_eqb e) l.

Definition ev_add (e : EventType) (l : list EventType) : list EventType :=
  if ev_mem e l then l else l ++ [e].

(** The event-type part of [extractIntent], from the four keyword tests. *)
Definition intentEventTypes (sawDelete sawCreate sawModify sawChange : bool)
    : list EventType :=
  let s1 := if sawDelete then ev_add Deleted [] else [] in
  let s2 := if sawCreate then ev_add Created s1 else s1 in
  let s3 := if sawModify then ev_add Modified s2 else s2 in
  let s4 :=
    if sawChange then
      if negb sawDelete && negb sawCreate && negb sawModify
      then ev_add Modified (ev_add Created s3)
      else if negb (ev_mem Modified s3) then ev_add Modified s3 else s3
    else s3 in
  List.filter (fun e => ev_mem e s4) EVENT_ORDER.

Definition extractIntent (condition : jsstr) : RuleIntent :=
  let text := toLowerCase condition in
  let eventTypes :=
    intentEventTypes (test re_delete text) (test re_create text)
                     (test re_modify text) (test re_change text) in
  let fromLiterals :=
    fold_left (fun acc m => set_add (default [] (group text m 0)) acc)
              (matchAll re_extension text) [] in
  let extensions :=
    match fromLiterals with
    | [] =>
        fold_left (fun acc km =>
            if test (snd km) text then
              match List.find (fun e => jsstr_eqb (fst e) (fst km)) LANGUAGE_EXTENSIONS with
              | Some (_, exts) => fold_left (fun a e => set_add e a) exts acc
              | None => acc
              end
            else acc) LANGUAGE_MATCHERS []
    | _ => fromLiterals
    end in
  let fromTokens :=
    fold_left (fun acc m =>
        let token := default [] (group text m 1) in
        if negb (isStopwordToken token) then set_add (normalizePathToken token) acc else acc)
      (matchAll re_path text) [] in
  let pathIncludes :=
    fold_left (fun acc m =>
        let token := default [] (group text m 2) in
        if negb (isStopwordToken token) then set_add (normalizePathToken token) acc else acc)
      (matchAll re_phrase text) fromTokens in
  mkIntent eventTypes extensions pathIncludes
           (parseThresholdCount text) (parseWindowSeconds text).

(* ------------------------------------------------------------------ *)
(** ** [CompiledRule] and [RuleCompiler.alignRuleToIntent] *)

Record CompiledRule := mkCompiled {
  cr_type : RuleType;
  cr_match : MatchFilter;
  cr_windowSeconds : option Z;
  cr_count : option Z
}.

Definition RuleType_eqb (a b : RuleType) : bool :=
  match a, b with
  | RTPattern, RTPattern | RTThreshold, RTThreshold => true
  | _, _ => false
  end.

(** [String.prototype.trim]. *)
Definition trim (s : jsstr) : jsstr :=
  rev (dropWhile isSpace (rev (dropWhile isSpace s))).

(** [/(exclude|excluding|except|ignore|ignoring)\b/i] *)
Definition re_exclusion : regex :=
  RSeq (RGroup 1 (alts (map lit_ci ["exclude"; "excluding"; "except"; "ignore"; "ignoring"]%string)))
       RBound.

Definition alignRuleToIntent (condition : jsstr) (rule : CompiledRule) : CompiledRule :=
  let intent := extractIntent condition in
  let m := cr_match rule in
  let thresholdRequested := isSome (ri_count intent) && isSome (ri_windowSeconds intent) in
  let '(type, count, windowSeconds) :=
    if thresholdRequested then (RTThreshold, ri_count intent, ri_windowSeconds intent)
    else if RuleType_eqb (cr_type rule) RTThreshold then (RTPattern, None, None)
    else (cr_type rule, cr_count rule, cr_windowSeconds rule) in
  let eventTypes' :=
    match ri_eventTypes intent with [] => eventTypes m | ts => Some ts end in
  let extensions' :=
    match ri_extensions intent with
    | [] => match nonEmpty (extensions m) with Some _ => None | None => extensions m end
    | xs => Some xs
    end in
  let pathIncludes' :=
    match ri_pathIncludes intent with
    | [] => match nonEmpty (pathIncludes m) with Some _ => None | None => pathIncludes m end
    | ps =>
        Some (fold_left (fun acc v => set_add v acc)
                (List.filter (fun v => negb (Nat.eqb (length v) 0)) (map trim ps)) [])
    end in
  let pathExcludes' :=
    if negb (test re_exclusion condition) then
      match nonEmpty (pathExcludes m) with Some _ => None | None => pathExcludes m end
    else pathExcludes m in
  mkCompiled type (mkMatch pathIncludes' pathExcludes' extensions' eventTypes')
             windowSeconds count.

(* ------------------------------------------------------------------ *)
(** ** [RuleValidator.validateCompiledRule] *)

Record ValidationError := mkError { ve_field : jsstr; ve_message : jsstr }.
Record ValidationResult := mkResult { vr_valid : bool; vr_errors : list ValidationError }.

Definition MIN_WINDOW_SECONDS : Z := 10.
Definition MAX_WINDOW_SECONDS : Z := 86400.
Definition MIN_THRESHOLD_COUNT : Z := 1.
Definition MAX_THRESHOLD_COUNT : Z := 1000.

Definition quoted (s : jsstr) : jsstr := [34] ++ s ++ [34].

(** [validateMatchFilter]: the arrays of the typed model are arrays of
    strings (or of event types), so [validateArray] reports nothing. *)
Definition validateMatchFilter (match_ : MatchFilter) : list ValidationError :=
  (match extensions match_ with
   | Some xs =>
       flat_map (fun ext =>
           if startsWith ext (u ".") then []
           else [mkError (u "extensions")
                   (u "Extension " ++ quoted ext ++ u " must start with " ++ quoted (u "."))])
         xs
   | None => []
   end) ++
  (match eventTypes match_ with
   | Some ts =>
       flat_map (fun e =>
           if ev_mem e [Created; Modified; Deleted] then []
           else [mkError (u "eventTypes") (u "Invalid event type " ++ quoted (eventTypeName e))])
         ts
   | None => []
   end).

Definition validateCompiledRule (rule : CompiledRule) : ValidationResult :=
  let matchErrors := validateMatchFilter (cr_match rule) in
  let thresholdErrors :=
    match cr_type rule with
    | RTThreshold =>
        (match cr_windowSeconds rule with
         | None => [mkError (u "windowSeconds") (u "windowSeconds must be a number")]
         | Some w =>
             if (w <? MIN_WINDOW_SECONDS) || (MAX_WINDOW_SECONDS <? w)
             then [mkError (u "windowSeconds")
                     (u "windowSeconds must be between " ++ numToString MIN_WINDOW_SECONDS
                      ++ u " and " ++ numToString MAX_WINDOW_SECONDS)]
             else []
         end) ++
        (match cr_count rule with
         | None => [mkError (u "count") (u "count must be a number")]
         | Some c =>
             if (c <? MIN_THRESHOLD_COUNT) || (MAX_THRESHOLD_COUNT <? c)
             then [mkError (u "count")
                     (u "count must be between " ++ numToString MIN_THRESHOLD_COUNT
                      ++ u " and " ++ numToString MAX_THRESHOLD_COUNT)]
             else []
         end)
    | RTPattern => []
    end in
  let hasPathOrExtension :=
    isSome (nonEmpty (pathIncludes (cr_match rule))) ||
    isSome (nonEmpty (extensions (cr_match rule))) in
  let broadErrors :=
    if negb hasPathOrExtension
    then [mkError (u "match") (u "Rule is too broad. Add pathIncludes or extensions to narrow scope.")]
    else [] in
  let errors := matchErrors ++ thresholdErrors ++ broadErrors in
  mkResult (Nat.eqb (length errors) 0) errors.

(* ------------------------------------------------------------------ *)
(** ** [RuleStore.updateRule] and [RuleStore.recordMatch]

    [updates] is a [Partial<Rule>]: any field may be present. *)

Record RuleUpdates := mkUpdates {
  up_id : option jsstr;
  up_name : option jsstr;
  up_description : option jsstr;
  up_enabled : option bool;
  up_createdAt : option Z;
  up_lastMatched : option Z;
  up_matchCount : option Z;
  up_kind : option RuleKind;
  up_match : option MatchFilter;
  up_source : option RuleSource;
  up_originalCondition : option jsstr
}.

Definition set_name (r : Rule) (v : jsstr) : Rule :=
  mkRule (r_id r) v (r_description r) (r_enabled r) (r_createdAt r) (r_lastMatched r)
         (r_matchCount r) (r_kind r) (r_match r) (r_source r) (r_originalCondition r).
Definition set_description (r : Rule) (v : jsstr) : Rule :=
  mkRule (r_id r) (r_name r) v (r_enabled r) (r_createdAt r) (r_lastMatched r)
         (r_matchCount r) (r_kind r) (r_match r) (r_source r) (r_originalCondition r).
Definition set_enabled (r : Rule) (v : bool) : Rule :=
  mkRule (r_id r) (r_name r) (r_description r) v (r_createdAt r) (r_lastMatched r)
         (r_matchCount r) (r_kind r) (r_match r) (r_source r) (r_originalCondition r).

(** The loop over [allowed = ['name', 'description', 'enabled']]: returns
    the updated rule and whether some key was present. *)
Definition applyAllowed (rule : Rule) (updates : RuleUpdates) : Rule * bool :=
  let '(r1, c1) := match up_name updates with
                   | Some v => (set_name rule v, true) | None => (rule, false) end in
  let '(r2, c2) := match up_description updates with
                   | Some v => (set_description r1 v, true) | None => (r1, c1) end in
  match up_enabled updates with
  | Some v => (set_enabled r2 v, true)
  | None => (r2, c2)
  end.

(** [this.data.rules.find((r) => r.id === id)] followed by an in-place
    update of that (first) rule. *)
Fixpoint update_first (id : jsstr) (f : Rule -> Rule * bool) (rules : list Rule)
    : option (list Rule * bool) :=
  match rules with
  | [] => None
  | r :: rs =>
      if jsstr_eqb (r_id r) id then let '(r', c) := f r in Some (r' :: rs, c)
      else match update_first id f rs with
           | Some (rs', c) => Some (r :: rs', c)
           | None => None
           end
  end.

(** Returns the result of [updateRule] and the store's rule list after it. *)
Definition updateRule (id : jsstr) (updates : RuleUpdates) (rules : list Rule)
    : bool * list Rule :=
  match update_first id (fun r => applyAllowed r updates) rules with
  | None => (false, rules)
  | Some (rules', changed) => (changed, rules')
  end.

Definition recordMatchStore (ruleId : jsstr) (now : Z) (rules : list Rule) : list Rule :=
  match update_first ruleId
          (fun r => (mkRule (r_id r) (r_name r) (r_description r) (r_enabled r) (r_createdAt r)
                       (Some now) (r_matchCount r + 1) (r_kind r) (r_match r) (r_source r)
                       (r_originalCondition r), true)) rules with
  | Some (rules', _) => rules'
  | None => rules
  end.

(* ------------------------------------------------------------------ *)
(** ** [RuleEngine.evaluateEvent]

    The engine's state: its statistics, ring buffer of recent matches and
    threshold windows, and the rule list of the store it reads and updates.
    The path check of the [SecurityValidator] (which consults the file
    system), [path.resolve] and the clock are parameters; [clock i] is the
    [Date.now()] reading while the [i]-th enabled rule is evaluated. *)

Record EngineStats := mkStats { eventsObserved : Z; rulesEvaluated : Z; matches : Z }.

Record Engine := mkEngine {
  stats : EngineStats;
  recentMatches : list RuleMatch;
  recentMatchLimit : Z;
  thresholdWindows : Windows;
  storeRules : list Rule
}.

Section EvaluateEvent.
Variable validateFilePath : jsstr -> bool.
Variable resolve : jsstr -> jsstr -> jsstr.
Variable watchDir : jsstr.
Variable clock : nat -> Z.

(** [RuleEngine.recordMatch]: the bounded ring buffer. *)
Definition pushRecent (limit : Z) (m : RuleMatch) (recent : list RuleMatch) : list RuleMatch :=
  let pushed := recent ++ [m] in
  if limit <? Z.of_nat (length pushed) then tl pushed else pushed.

Fixpoint evaluateRules (event : FileEvent) (i : nat) (rules : list Rule) (st : Engine)
    : list RuleMatch * Engine :=
  match rules with
  | [] => ([], st)
  | rule :: rest =>
      let '(m, tw) := evaluateRule event rule (clock i) (thresholdWindows st) in
      let st1 := mkEngine (stats st) (recentMatches st) (recentMatchLimit st) tw (storeRules st) in
      match m with
      | Some mt =>
          let s := stats st1 in
          let st2 := mkEngine (mkStats (eventsObserved s) (rulesEvaluated s) (matches s + 1))
                       (pushRecent (recentMatchLimit st1) mt (recentMatches st1))
                       (recentMatchLimit st1) (thresholdWindows st1)
                       (recordMatchStore (r_id rule) (clock i) (storeRules st1)) in
          let '(ms, st3) := evaluateRules event (S i) rest st2 in
          (mt :: ms, st3)
      | None => evaluateRules event (S i) rest st1
      end
  end.

Definition evaluateEvent (event : FileEvent) (st : Engine) : list RuleMatch * Engine :=
  let s := stats st in
  let st1 := mkEngine (mkStats (eventsObserved s + 1) (rulesEvaluated s) (matches s))
               (recentMatches st) (recentMatchLimit st) (thresholdWindows st) (storeRules st) in
  let absolutePath := resolve watchDir (ev_path event) in
  if negb (validateFilePath absolutePath) then ([], st1) else
  let rules := List.filter r_enabled (storeRules st1) in
  let s1 := stats st1 in
  let st2 := mkEngine (mkStats (eventsObserved s1) (rulesEvaluated s1 + Z.of_nat (length rules))
                               (matches s1))
               (recentMatches st1) (recentMatchLimit st1) (thresholdWindows st1) (storeRules st1) in
  evaluateRules event 0 rules st2.
End EvaluateEvent.

(** A [path.resolve] for absolute [watchDir] and relative paths without
    dot segments: joins them with a slash. *)
Definition resolve_example (dir p : jsstr) : jsstr := dir ++ [47] ++ p.

Definition ex_engine : Engine :=
  mkEngine (mkStats 4 7 1) [] 100 (<[u "rule_t" := [0]]> ∅) [ex_pattern_rule; ex_threshold_rule].

(* ------------------------------------------------------------------ *)
(** ** [RuleStore.normalizeArray] and [RuleStore.ruleSignatureFromCompiled]

    The comparator [(a, b) => a.localeCompare(b)] is the host's collation,
    a parameter [localeCompare] of the definitions below.
    [Array.prototype.sort] is stable; a stable insertion sort gives the same
    result for every consistent comparator. *)

Section Signature.
Variable localeCompare : jsstr -> jsstr -> comparison.

Fixpoint insertSorted (x : jsstr) (l : list jsstr) : list jsstr :=
  match l with
  | [] => [x]
  | y :: l' => match localeCompare x y with Lt => x :: l | _ => y :: insertSorted x l' end
  end.

Definition sortStrings (l : list jsstr) : list jsstr :=
  fold_left (fun acc x => insertSorted x acc) l [].

(** [Array.from(new Set(xs))]: first occurrences, in order. *)
Definition dedupSet (l : list jsstr) : list jsstr :=
  fold_left (fun acc v => set_add v acc) l [].

Definition normalizeArray (values : option (list jsstr)) : option (list jsstr) :=
  match values with
  | None => None
  | Some vs =>
      let normalized :=
        List.filter (fun v => negb (Nat.eqb (length v) 0))
                    (map (fun v => toLowerCase (trim v)) vs) in
      match normalized with
      | [] => None
      | _ => Some (sortStrings (dedupSet normalized))
      end
  end.

(** The normalized object of [ruleSignatureFromCompiled]. *)
Record Signature := mkSignature {
  sg_type : RuleType;
  sg_pathIncludes : option (list jsstr);
  sg_pathExcludes : option (list jsstr);
  sg_extensions : option (list jsstr);
  sg_eventTypes : option (list jsstr);
  sg_windowSeconds : option Z;
  sg_count : option Z
}.

Definition normalizedSignature (compiled : CompiledRule) : Signature :=
  let m := cr_match compiled in
  mkSignature (cr_type compiled)
    (normalizeArray (pathIncludes m)) (normalizeArray (pathExcludes m))
    (normalizeArray (extensions m))
    (normalizeArray (option_map (map eventTypeName) (eventTypes m)))
    (cr_windowSeconds compiled) (cr_count compiled).
End Signature.

(** [JSON.stringify] of strings: QuoteJSONString, with lone surrogates
    escaped. *)
Definition hexDigit (d : Z) : Z := if d <? 10 then 48 + d else 87 + d.

Definition unicodeEscape (c : Z) : jsstr :=
  [92; 117; hexDigit (Z.shiftr c 12 mod 16); hexDigit (Z.shiftr c 8 mod 16);
   hexDigit (Z.shiftr c 4 mod 16); hexDigit (c mod 16)].

Definition isHighSurrogate (c : Z) : bool := (55296 <=? c) && (c <=? 56319).
Definition isLowSurrogate (c : Z) : bool := (56320 <=? c) && (c <=? 57343).

Fixpoint quoteUnits (l : list Z) : jsstr :=
  match l with
  | [] => []
  | c :: rest =>
      if c =? 8 then [92; 98] ++ quoteUnits rest
      else if c =? 9 then [92; 116] ++ quoteUnits rest
      else if c =? 10 then [92; 110] ++ quoteUnits rest
      else if c =? 12 then [92; 102] ++ quoteUnits rest
      else if c =? 13 then [92; 114] ++ quoteUnits rest
      else if c =? 34 then [92; 34] ++ quoteUnits rest
      else if c =? 92 then [92; 92] ++ quoteUnits rest
      else if c <? 32 then unicodeEscape c ++ quoteUnits rest
      else if isHighSurrogate c then
        match rest with
        | d :: rest' =>
            if isLowSurrogate d then c :: d :: quoteUnits rest'
            else unicodeEscape c ++ quoteUnits rest
        | [] => unicodeEscape c
        end
      else if isLowSurrogate c then unicodeEscape c ++ quoteUnits rest
      else c :: quoteUnits rest
  end.

Definition quoteJSON (s : jsstr) : jsstr := [34] ++ quoteUnits s ++ [34].

Definition jsonKey (k : string) : jsstr := quoteJSON (u k) ++ u ":".

Definition jsonArray (xs : list jsstr) : jsstr := u "[" ++ join (u ",") (map quoteJSON xs) ++ u "]".

Definition jsonNumOrNull (o : option Z) : jsstr :=
  match o with Some z => numToString z | None => u "null" end.

Definition ruleTypeName (t : RuleType) : jsstr :=
  match t with RTPattern => u "pattern" | RTThreshold => u "threshold" end.

(** [JSON.stringify(normalized)]: properties whose value is [undefined]
    are left out. *)
Definition stringifySignature (sg : Signature) : jsstr :=
  let field (k : string) (o : option (list jsstr)) :=
    match o with Some xs => [jsonKey k ++ jsonArray xs] | None => [] end in
  u "{" ++ jsonKey "type" ++ quoteJSON (ruleTypeName (sg_type sg)) ++ u "," ++
  jsonKey "match" ++ u "{" ++
    join (u ",") (field "pathIncludes"%string (sg_pathIncludes sg) ++ field "pathExcludes"%string (sg_pathExcludes sg)
                  ++ field "extensions"%string (sg_extensions sg) ++ field "eventTypes"%string (sg_eventTypes sg))
  ++ u "}," ++
  jsonKey "windowSeconds" ++ jsonNumOrNull (sg_windowSeconds sg) ++ u "," ++
  jsonKey "count" ++ jsonNumOrNull (sg_count sg) ++ u "}".

Definition ruleSignatureFromCompiled (localeCompare : jsstr -> jsstr -> comparison)
    (compiled : CompiledRule) : jsstr :=
  stringifySignature (normalizedSignature localeCompare compiled).

(** A model of [String.prototype.localeCompare] keeping the property the
    signature depends on: canonically equivalent strings compare equal, as
    ECMA-262 asks of every implementation. Strings are compared code unit by
    code unit after the canonical decomposition of the Latin-1 letters with
    diacritics; the host collation (ICU) orders strings differently but
    equates the same canonically equivalent strings. *)
Definition decomposeUnit (c : Z) : list Z :=
  match List.find (fun p => fst p =? c)
    [(224, [97; 768]); (225, [97; 769]); (226, [97; 770]); (227, [97; 771]);
     (228, [97; 776]); (229, [97; 778]); (231, [99; 807]); (232, [101; 768]);
     (233, [101; 769]); (234, [101; 770]); (235, [101; 776]); (236, [105; 768]);
     (237, [105; 769]); (238, [105; 770]); (239, [105; 776]); (241, [110; 771]);
     (242, [111; 768]); (243, [111; 769]); (244, [111; 770]); (245, [111; 771]);
     (246, [111; 776]); (249, [117; 768]); (250, [117; 769]); (251, [117; 770]);
     (252, [117; 776]); (253, [121; 769]); (255, [121; 776])] with
  | Some (_, d) => d
  | None => [c]
  end.

Fixpoint lexCompare (a b : list Z) : comparison :=
  match a, b with
  | [], [] => Eq
  | [], _ :: _ => Lt
  | _ :: _, [] => Gt
  | x :: a', y :: b' => match Z.compare x y with Eq => lexCompare a' b' | c => c end
  end.

Definition localeCompare_model (a b : jsstr) : comparison :=
  lexCompare (flat_map decomposeUnit a) (flat_map decomposeUnit b).

(** Entries of a match array after [trim] and [toLowerCase], empty ones
    dropped. *)
Definition normEntries (values : option (list jsstr)) : list jsstr :=
  List.filter (fun v => negb (Nat.eqb (length v) 0))
              (map (fun v => toLowerCase (trim v)) (opt_list values)).

(** "é" written precomposed and decomposed, in both orders. *)
Definition ex_accent_rule (xs : list jsstr) : CompiledRule :=
  mkCompiled RTPattern (mkMatch (Some xs) None None None) None None.

(* ------------------------------------------------------------------ *)
(** ** [RuleStore.save]: the promise queue

    [save] chains each write after the previous one:
    [previousSave = this.saveQueue.catch(() => undefined);
     this.saveQueue = previousSave.then(async () => { ... })].
    The model is a small-step semantics of that code over a promise heap.
    Promises are named by the call that creates them: [PCatch k] and
    [PThen k] for the [k]-th call of [save], [PAsync k] for the promise of
    its async callback, [PInit] for [Promise.resolve()]. Pending promises hold
    their reactions in order; settling one enqueues its reactions as
    microtask jobs. The environment completes the file-system call the task
    is awaiting, with success or an error code. [save] may be called at any
    step: the callers of [save] (the awaiting mutations of the store) are
    left out. *)

Inductive Outcome := Fulfilled | Rejected.

Inductive PId := PInit | PCatch (k : nat) | PThen (k : nat) | PAsync (k : nat).

#[global] Instance PId_eq_dec : EqDecision PId.
Proof. solve_decision. Defined.

(** Reactions: [p.catch(() => undefined)], [p.then(async () => ...)] of the
    [k]-th save, and the [resolve]/[reject] pair a promise passes to a
    thenable it is resolved with. *)
Inductive Reaction := RCatch (target : PId) | RThen (k : nat) | RResolve (target : PId).

Inductive PState := Pending (rs : list Reaction) | Settled (o : Outcome).

Inductive Job :=
  | JReaction (r : Reaction) (o : Outcome)
  | JResolveThenable (target src : PId).

Inductive ErrCode := EEXIST | EPERM | EBUSY | EOTHER.

(** The [await]s of the async callback. *)
Inductive Pc := AtWrite | AtRename | AtCopy | AtUnlinkAfterCopy | AtCleanup.

Inductive TaskState := TIdle | TAt (pc : Pc) | TDone (o : Outcome).

Inductive DiskOp := OpWriteTemp | OpRename | OpCopy | OpUnlink.

Record State := mkState {
  st_heap : PId -> PState;
  st_queue : PId;                 (* this.saveQueue *)
  st_tasks : nat -> TaskState;
  st_nsaves : nat;
  st_jobs : list Job;             (* the microtask queue *)
  st_trace : list (nat * DiskOp)  (* file-system calls issued, by save *)
}.

Inductive Action := ASave | ARunJob | AIo (k : nat) (res : option ErrCode).

Definition upd (h : PId -> PState) (p : PId) (v : PState) : PId -> PState :=
  fun q => if decide (q = p) then v else h q.

Definition updTask (t : nat -> TaskState) (k : nat) (v : TaskState) : nat -> TaskState :=
  fun j => if Nat.eqb j k then v else t j.

Definition settle (s : State) (p : PId) (o : Outcome) : State :=
  match st_heap s p with
  | Pending rs =>
      mkState (upd (st_heap s) p (Settled o)) (st_queue s) (st_tasks s) (st_nsaves s)
              (st_jobs s ++ map (fun r => JReaction r o) rs) (st_trace s)
  | Settled _ => s
  end.

Definition addReaction (s : State) (p : PId) (r : Reaction) : State :=
  match st_heap s p with
  | Pending rs =>
      mkState (upd (st_heap s) p (Pending (rs ++ [r]))) (st_queue s) (st_tasks s)
              (st_nsaves s) (st_jobs s) (st_trace s)
  | Settled o =>
      mkState (st_heap s) (st_queue s) (st_tasks s) (st_nsaves s)
              (st_jobs s ++ [JReaction r o]) (st_trace s)
  end.

Definition save (s : State) : State :=
  let k := st_nsaves s in
  let s1 := mkState (upd (upd (st_heap s) (PCatch k) (Pending [])) (PThen k) (Pending []))
                    (st_queue s) (st_tasks s) k (st_jobs s) (st_trace s) in
  (* previousSave = this.saveQueue.catch(() => undefined) *)
  let s2 := addReaction s1 (st_queue s) (RCatch (PCatch k)) in
  (* this.saveQueue = previousSave.then(async () => { ... }) *)
  let s3 := addReaction s2 (PCatch k) (RThen k) in
  mkState (st_heap s3) (PThen k) (st_tasks s3) (S k) (st_jobs s3) (st_trace s3).

(** Calling the async callback: its promise is created, the body runs up
    to [await writeFile(tempPath, ...)], and the promise of [then] is
    resolved with the callback's promise, a thenable. *)
Definition startTask (s : State) (k : nat) : State :=
  mkState (upd (st_heap s) (PAsync k) (Pending [])) (st_queue s)
          (updTask (st_tasks s) k (TAt AtWrite)) (st_nsaves s)
          (st_jobs s ++ [JResolveThenable (PThen k) (PAsync k)])
          (st_trace s ++ [(k, OpWriteTemp)]).

Definition runJob (s : State) : option State :=
  match st_jobs s with
  | [] => None
  | j :: rest =>
      let s' := mkState (st_heap s) (st_queue s) (st_tasks s) (st_nsaves s) rest (st_trace s) in
      Some (match j with
            | JReaction (RCatch t) _ => settle s' t Fulfilled
            | JReaction (RThen k) Fulfilled => startTask s' k
            | JReaction (RThen k) Rejected => settle s' (PThen k) Rejected
            | JReaction (RResolve t) o => settle s' t o
            | JResolveThenable t src => addReaction s' src (RResolve t)
            end)
  end.

Section SaveTask.
Variable win32 : bool.

Definition renameFallback (code : ErrCode) : bool :=
  win32 && match code with EEXIST | EPERM | EBUSY => true | EOTHER => false end.

(** The async callback after the awaited call completes: the next state
    of the task and the file-system calls it issues. *)
Definition ioStep (pc : Pc) (res : option ErrCode) : TaskState * list DiskOp :=
  match pc, res with
  | AtWrite, None => (TAt AtRename, [OpRename])
  | AtWrite, Some _ => (TAt AtCleanup, [OpUnlink])
  | AtRename, None => (TDone Fulfilled, [])
  | AtRename, Some code =>
      if renameFallback code then (TAt AtCopy, [OpCopy]) else (TAt AtCleanup, [OpUnlink])
  | AtCopy, None => (TAt AtUnlinkAfterCopy, [OpUnlink])
  | AtCopy, Some _ => (TAt AtCleanup, [OpUnlink])
  | AtUnlinkAfterCopy, None => (TDone Fulfilled, [])
  | AtUnlinkAfterCopy, Some _ => (TAt AtCleanup, [OpUnlink])
  | AtCleanup, _ => (TDone Rejected, [])
  end.

Definition ioDone (s : State) (k : nat) (res : option ErrCode) : option State :=
  match st_tasks s k with
  | TAt pc =>
      let (t, ops) := ioStep pc res in
      let s1 := mkState (st_heap s) (st_queue s) (updTask (st_tasks s) k t) (st_nsaves s)
                        (st_jobs s) (st_trace s ++ map (pair k) ops) in
      Some (match t with TDone o => settle s1 (PAsync k) o | _ => s1 end)
  | _ => None
  end.

Definition step (s : State) (a : Action) : option State :=
  match a with
  | ASave => Some (save s)
  | ARunJob => runJob s
  | AIo k res => ioDone s k res
  end.

Fixpoint run (acts : list Action) (s : State) : option State :=
  match acts with
  | [] => Some s
  | a :: rest => match step s a with Some s' => run rest s' | None => None end
  end.
End SaveTask.

Definition initState : State :=
  mkState (fun p => match p with PInit => Settled Fulfilled | _ => Pending [] end)
          PInit (fun _ => TIdle) 0 [] [].

Definition isRunning (t : TaskState) : bool := match t with TAt _ => true | _ => false end.
Definition isDone (t : TaskState) : bool := match t with TDone _ => true | _ => false end.
Definition isSettled (p : PState) : bool := match p with Settled _ => true | Pending _ => false end.

(** Two saves in a row, the first one failing at [rename]. *)
Definition demo_acts : list Action :=
  [ASave; ASave; ARunJob; ARunJob; AIo 0 None; ARunJob; AIo 0 (Some EOTHER); AIo 0 None;
   ARunJob; ARunJob; ARunJob; ARunJob; AIo 1 None; AIo 1 None; ARunJob].

(** The states [save] reaches. Saves [0 .. f-1] are finished, save [f] is
    in phase [ph], saves after [f] wait for their predecessor. *)
Inductive Phase :=
  | PhQ1 (o : Outcome)    (* the catch reaction of save f is queued *)
  | PhQ2                  (* the then reaction of save f is queued *)
  | PhRun1 (pc : Pc)      (* running; the thenable job is queued *)
  | PhRun2 (pc : Pc)      (* running; the then promise listens to the callback *)
  | PhDone1 (o : Outcome) (* callback settled; the thenable job is queued *)
  | PhDone2 (o : Outcome). (* callback settled; its reaction is queued *)

Definition nextReactions (n k : nat) : list Reaction :=
  if Nat.ltb (S k) n then [RCatch (PCatch (S k))] else [].

Definition canonHeap (n f : nat) (ph : option Phase) (outc : nat -> Outcome) (p : PId) : PState :=
  match p with
  | PInit => Settled Fulfilled
  | PCatch k =>
      if Nat.ltb k f then Settled Fulfilled
      else if Nat.eqb k f then
        match ph with Some (PhQ1 _) => Pending [RThen k] | Some _ => Settled Fulfilled | None => Pending [] end
      else if Nat.ltb k n then Pending [RThen k] else Pending []
  | PThen k =>
      if Nat.ltb k f then Settled (outc k) else if Nat.ltb k n then Pending (nextReactions n k) else Pending []
  | PAsync k =>
      if Nat.ltb k f then Settled (outc k)
      else if Nat.eqb k f then
        match ph with
        | Some (PhRun2 _) => Pending [RResolve (PThen k)]
        | Some (PhDone1 o) | Some (PhDone2 o) => Settled o
        | _ => Pending []
        end
      else Pending []
  end.

Definition canonTask (f : nat) (ph : option Phase) (outc : nat -> Outcome) (k : nat) : TaskState :=
  if Nat.ltb k f then TDone (outc k)
  else if Nat.eqb k f then
    match ph with
    | Some (PhRun1 pc) | Some (PhRun2 pc) => TAt pc
    | Some (PhDone1 o) | Some (PhDone2 o) => TDone o
    | _ => TIdle
    end
  else TIdle.

Definition canonJobs (f : nat) (ph : option Phase) : list Job :=
  match ph with
  | None | Some (PhRun2 _) => []
  | Some (PhQ1 o) => [JReaction (RCatch (PCatch f)) o]
  | Some PhQ2 => [JReaction (RThen f) Fulfilled]
  | Some (PhRun1 _) | Some (PhDone1 _) => [JResolveThenable (PThen f) (PAsync f)]
  | Some (PhDone2 o) => [JReaction (RResolve (PThen f)) o]
  end.

Definition canonQueue (n : nat) : PId := match n with O => PInit | S m => PThen m end.

Definition SaveInv (s : State) : Prop :=
  exists f ph outc,
    ((f < st_nsaves s)%nat /\ ph <> None \/ (f = st_nsaves s /\ ph = None)) /\
    (forall p, st_heap s p = canonHeap (st_nsaves s) f ph outc p) /\
    (forall k, st_tasks s k = canonTask f ph outc k) /\
    st_jobs s = canonJobs f ph /\
    st_queue s = canonQueue (st_nsaves s) /\
    StronglySorted le (map fst (st_trace s)) /\
    Forall (fun e => fst e <= f)%nat (st_trace s).

Definition demo_state : State :=
  match run false demo_acts initState with Some s => s | None => initState end.

(* ------------------------------------------------------------------ *)
(** ** [RuleValidator.validateCompiledRuleWithIntent] *)

(** A number or [undefined] in a template literal. *)
Definition optNumToString (o : option Z) : jsstr :=
  match o with Some z => numToString z | None => u "undefined" end.

(** [a !== b] on two values that are numbers or [undefined]. *)
Definition optZ_neqb (a b : option Z) : bool :=
  match a, b with
  | Some x, Some y => negb (x =? y)
  | None, None => false
  | _, _ => true
  end.

Definition validateCompiledRuleWithIntent (rule : CompiledRule) (condition : jsstr)
    : ValidationResult :=
  let base := validateCompiledRule rule in
  let intent := extractIntent condition in
  let thresholdRequested := isSome (ri_count intent) && isSome (ri_windowSeconds intent) in
  let isThreshold := RuleType_eqb (cr_type rule) RTThreshold in
  let typeErrors :=
    if thresholdRequested && negb isThreshold
    then [mkError (u "type")
            (u "Rule mentions a count and time window but compiled rule is not threshold.")]
    else [] in
  let thresholdErrors :=
    if thresholdRequested && isThreshold then
      (if optZ_neqb (cr_count rule) (ri_count intent)
       then [mkError (u "count")
               (u "Rule mentions count " ++ optNumToString (ri_count intent)
                ++ u " but compiled count is " ++ optNumToString (cr_count rule) ++ u ".")]
       else []) ++
      (if optZ_neqb (cr_windowSeconds rule) (ri_windowSeconds intent)
       then [mkError (u "windowSeconds")
               (u "Rule mentions window " ++ optNumToString (ri_windowSeconds intent)
                ++ u "s but compiled window is " ++ optNumToString (cr_windowSeconds rule)
                ++ u "s.")]
       else [])
    else [] in
  let eventTypeErrors :=
    match ri_eventTypes intent with
    | [] => []
    | its =>
        match opt_list (eventTypes (cr_match rule)) with
        | [] => [mkError (u "eventTypes")
                   (u "Rule mentions specific events but compiled rule has none.")]
        | ets =>
            match List.filter (fun e => negb (ev_mem e its)) ets with
            | [] => []
            | extra =>
                [mkError (u "eventTypes")
                   (u "Rule mentions " ++ join (u ", ") (map eventTypeName its)
                    ++ u " but compiled includes " ++ join (u ", ") (map eventTypeName extra)
                    ++ u ".")]
            end
        end
    end in
  let extensionErrors :=
    match ri_extensions intent with
    | [] => []
    | iexts =>
        let exts := opt_list (extensions (cr_match rule)) in
        let missing :=
          List.filter (fun ext => negb (existsb (fun value =>
              jsstr_eqb (toLowerCase value) (toLowerCase ext)) exts)) iexts in
        let extras :=
          List.filter (fun ext => negb (existsb (fun value =>
              jsstr_eqb (toLowerCase value) (toLowerCase ext)) iexts)) exts in
        (match missing with
         | [] => []
         | _ => [mkError (u "extensions")
                   (u "Rule mentions " ++ join (u ", ") missing
                    ++ u " but compiled rule omitted them.")]
         end) ++
        (match extras with
         | [] => []
         | _ => [mkError (u "extensions")
                   (u "Compiled rule added unexpected extensions: " ++ join (u ", ") extras
                    ++ u ".")]
         end)
    end in
  let pathErrors :=
    match ri_pathIncludes intent with
    | [] => []
    | incs =>
        let paths := opt_list (pathIncludes (cr_match rule)) in
        let missing :=
          List.filter (fun inc => negb (existsb (fun value =>
              includes (toLowerCase value) (toLowerCase inc)) paths)) incs in
        let extras :=
          List.filter (fun inc => negb (existsb (fun value =>
              includes (toLowerCase inc) (toLowerCase value)) incs)) paths in
        (match missing with
         | [] => []
         | _ => [mkError (u "pathIncludes")
                   (u "Rule mentions " ++ join (u ", ") missing
                    ++ u " but compiled rule omitted them.")]
         end) ++
        (match extras with
         | [] => []
         | _ => [mkError (u "pathIncludes")
                   (u "Compiled rule added unexpected paths: " ++ join (u ", ") extras
                    ++ u ".")]
         end)
    end in
  let errors := vr_errors base ++ typeErrors ++ thresholdErrors ++ eventTypeErrors
                ++ extensionErrors ++ pathErrors in
  mkResult (Nat.eqb (length errors) 0) errors.

(* ------------------------------------------------------------------ *)
(** ** [RuleStore.addRule], [getRule], [deleteRule], [findDuplicateRule] *)

Record AddRuleParams := mkAddRuleParams {
  ap_name : jsstr;
  ap_description : jsstr;
  ap_condition : jsstr;
  ap_compiled : CompiledRule;
  ap_source : RuleSource
}.

(** [addRule] with [generateId()] returning [id] and [Date.now()] returning
    [now]: the new rule and the store's rule list after the push.
    [compiled.windowSeconds || 0] and [compiled.count || 0] default an
    absent value to [0]. *)
Definition addRule (id : jsstr) (now : Z) (params : AddRuleParams) (rules : list Rule)
    : Rule * list Rule :=
  let compiled := ap_compiled params in
  let kind :=
    match cr_type compiled with
    | RTThreshold =>
        ThresholdRule (default 0 (cr_windowSeconds compiled)) (default 0 (cr_count compiled))
    | RTPattern => PatternRule
    end in
  let rule := mkRule id (ap_name params) (ap_description params) true now None 0 kind
                (cr_match compiled) (ap_source params) (Some (ap_condition params)) in
  (rule, rules ++ [rule]).

(** [this.data.rules.find((r) => r.id === id)], copied. *)
Definition getRule (id : jsstr) (rules : list Rule) : option Rule :=
  List.find (fun r => jsstr_eqb (r_id r) id) rules.

(** [Array.prototype.findIndex], [None] for [-1]. *)
Fixpoint findIndex {A} (p : A -> bool) (l : list A) : option nat :=
  match l with
  | [] => None
  | x :: l' => if p x then Some O else option_map S (findIndex p l')
  end.

(** [deleteRule]: its result and the store's rule list after
    [splice(index, 1)]. *)
Definition deleteRule (id : jsstr) (rules : list Rule) : bool * list Rule :=
  match findIndex (fun r => jsstr_eqb (r_id r) id) rules with
  | None => (false, rules)
  | Some index => (true, firstn index rules ++ skipn (S index) rules)
  end.

Section Duplicates.
Variable localeCompare : jsstr -> jsstr -> comparison.

Definition ruleSignatureFromRule (rule : Rule) : jsstr :=
  ruleSignatureFromCompiled localeCompare
    (mkCompiled (ruleType rule) (r_match rule)
       (match r_kind rule with ThresholdRule w _ => Some w | PatternRule => None end)
       (match r_kind rule with ThresholdRule _ c => Some c | PatternRule => None end)).

Definition findDuplicateRule (condition : jsstr) (compiled : CompiledRule) (rules : list Rule)
    : option Rule :=
  let normalizedCondition := toLowerCase (trim condition) in
  let compiledSignature := ruleSignatureFromCompiled localeCompare compiled in
  List.find (fun rule =>
      let existingCondition :=
        match r_originalCondition rule with
        | Some oc => toLowerCase (trim oc)
        | None => []
        end in
      if negb (Nat.eqb (length existingCondition) 0)
         && jsstr_eqb existingCondition normalizedCondition then true
      else jsstr_eqb (ruleSignatureFromRule rule) compiledSignature) rules.
End Duplicates.

(* ------------------------------------------------------------------ *)
(** ** [RuleCompiler.extractJsonSnippet] *)

(** [s.replace(r, '')] for a regular expression with the [g] flag: the
    pieces of [s] between the successive matches. *)
Fixpoint cutMatches (s : jsstr) (pos : nat) (ms : list (nat * nat * captures)) : jsstr :=
  match ms with
  | [] => skipn pos s
  | (i, j, _) :: ms' => firstn (i - pos) (skipn pos s) ++ cutMatches s j ms'
  end.

Definition replaceAllEmpty (r : regex) (s : jsstr) : jsstr := cutMatches s 0 (matchAll r s).

(** [/```(?:json)?/gi] and [/```/g] *)
Definition re_fence_json : regex := RSeq (lit "```") (opt (lit_ci "json")).
Definition re_fence : regex := lit "```".

(** [s.indexOf(c)] and [s.lastIndexOf(c)] for a one-unit [c]. *)
Fixpoint indexOfFrom (c : Z) (s : jsstr) (i : Z) : Z :=
  match s with
  | [] => -1
  | x :: s' => if x =? c then i else indexOfFrom c s' (i + 1)
  end.

Definition indexOf (c : Z) (s : jsstr) : Z := indexOfFrom c s 0.

Definition lastIndexOf (c : Z) (s : jsstr) : Z :=
  let i := indexOf c (rev s) in
  if i =? -1 then -1 else Z.of_nat (length s) - 1 - i.

(** The [cleaned] text of [extractJsonSnippet]. *)
Definition cleanResponse (response : jsstr) : jsstr :=
  trim (replaceAllEmpty re_fence (replaceAllEmpty re_fence_json response)).

Definition extractJsonSnippet (response : jsstr) : option jsstr :=
  let cleaned := cleanResponse response in
  let start := indexOf 123 cleaned in
  let end_ := lastIndexOf 125 cleaned in
  if (start =? -1) || (end_ =? -1) || (end_ <=? start) then None
  else Some (slice cleaned start (end_ + 1)).

(* ------------------------------------------------------------------ *)
(** ** [RuleCompiler.normalizeMatchFilter] and [normalizeEventType]

    The parsed LLM output is a JSON value. *)

#[warnings="-register-all"]
Inductive JSON :=
| JNull
| JBool (b : bool)
| JNum (n : Z)
| JStr (s : jsstr)
| JArr (xs : list JSON)
| JObj (fields : list (jsstr * JSON)).

(** [o[k]] on a parsed object: [JSON.parse] keeps the last of duplicate
    keys. *)
Definition jget (fields : list (jsstr * JSON)) (k : jsstr) : option JSON :=
  fold_left (fun acc kv => if jsstr_eqb (fst kv) k then Some (snd kv) else acc) fields None.

(** [.filter((p) => typeof p === 'string')] *)
Definition jstrings (xs : list JSON) : list jsstr :=
  flat_map (fun v => match v with JStr s => [s] | _ => [] end) xs.

(** [.filter(string).map((p) => p.trim()).filter((p) => p.length > 0)] *)
Definition trimmedStrings (xs : list JSON) : list jsstr :=
  List.filter (fun p => Nat.ltb 0 (length p)) (map trim (jstrings xs)).

(** A value read from the [map] object literal of [normalizeEventType]: one
    of its own properties, or a member inherited from [Object.prototype]. *)
Inductive EventTypeValue := EVEvent (e : EventType) | EVInherited (name : jsstr).

Definition EVENT_TYPE_MAP : list (jsstr * EventType) :=
  map (fun p => (u (fst p), snd p))
  [("add", Created); ("added", Created); ("create", Created); ("created", Created);
   ("new", Created); ("change", Modified); ("changed", Modified); ("modify", Modified);
   ("modified", Modified); ("update", Modified); ("updated", Modified);
   ("delete", Deleted); ("deleted", Deleted); ("remove", Deleted); ("removed", Deleted);
   ("unlink", Deleted)]%string.

(** The members of [Object.prototype] whose names are in lower case; both
    are truthy. *)
Definition OBJECT_PROTOTYPE_LOWER : list jsstr := map u ["constructor"; "__proto__"]%string.

(** [map[value] || null] *)
Definition normalizeEventType (input : jsstr) : option EventTypeValue :=
  let value := trim (toLowerCase input) in
  match List.find (fun kv => jsstr_eqb (fst kv) value) EVENT_TYPE_MAP with
  | Some (_, e) => Some (EVEvent e)
  | None => if str_mem value OBJECT_PROTOTYPE_LOWER then Some (EVInherited value) else None
  end.

Record NormalizedFilter := mkNormalized {
  nf_pathIncludes : option (list jsstr);
  nf_pathExcludes : option (list jsstr);
  nf_extensions : option (list jsstr);
  nf_eventTypes : option (list EventTypeValue)
}.

Definition jArray (o : option JSON) : option (list JSON) :=
  match o with Some (JArr xs) => Some xs | _ => None end.

Definition normalizeMatchFilter (match_ : JSON) : NormalizedFilter :=
  match match_ with
  | JObj fields =>
      let pathIncludes' := option_map trimmedStrings (jArray (jget fields (u "pathIncludes"))) in
      let pathExcludes' := option_map trimmedStrings (jArray (jget fields (u "pathExcludes"))) in
      let extensions' :=
        option_map (fun xs => map (fun e => if startsWith e (u ".") then e else u "." ++ e)
                                  (trimmedStrings xs))
                   (jArray (jget fields (u "extensions"))) in
      let eventTypes' :=
        match jArray (jget fields (u "eventTypes")) with
        | Some xs =>
            match flat_map (fun e => match normalizeEventType e with Some v => [v] | None => [] end)
                           (jstrings xs) with
            | [] => None
            | normalized => Some normalized
            end
        | None => None
        end in
      mkNormalized pathIncludes' pathExcludes' extensions' eventTypes'
  | _ => mkNormalized None None None None
  end.

(* ------------------------------------------------------------------ *)
(** ** Auxiliary notions for the properties below

    [only P r]: every unit a match of [r] consumes satisfies [P], and [r]
    has no group; [grp_ok n P r]: every unit captured by group [n] of [r]
    satisfies [P]; [span_ok P s i j]: the units of [s] from [i] to [j]
    satisfy [P]. [totalMatches] is the [totalMatches] figure of the
    [/report] route: the sum of the rules' match counts. [bump] is the
    update [RuleStore.recordMatch] applies to the rule it finds. *)

Fixpoint only (P : Z -> bool) (r : regex) : Prop :=
  match r with
  | REmpty | RBound => True
  | RChar p => forall x, p x = true -> P x = true
  | RSeq r1 r2 | RAlt r1 r2 => only P r1 /\ only P r2
  | RStar r1 => only P r1
  | RGroup _ _ => False
  end.

Definition span_ok (P : Z -> bool) (s : jsstr) (i j : nat) : Prop :=
  (i <= j)%nat /\
  forall t, (i <= t < j)%nat -> exists x, nth_error s t = Some x /\ P x = true.

Fixpoint grp_ok (n : nat) (P : Z -> bool) (r : regex) : Prop :=
  match r with
  | REmpty | RBound | RChar _ => True
  | RSeq r1 r2 | RAlt r1 r2 => grp_ok n P r1 /\ grp_ok n P r2
  | RStar r1 => grp_ok n P r1
  | RGroup m r1 => if Nat.eqb m n then only P r1 else grp_ok n P r1
  end.

Definition caps_ok (n : nat) (P : Z -> bool) (s : jsstr) (c : captures) : Prop :=
  forall a b, In (n, (a, b)) c -> span_ok P s a b.

Definition nonspace (x : Z) : bool := negb (isSpace x).

Definition totalMatches (rules : list Rule) : Z :=
  fold_left (fun sum r => sum + r_matchCount r) rules 0.

Definition bump (now : Z) (r : Rule) : Rule * bool :=
  (mkRule (r_id r) (r_name r) (r_description r) (r_enabled r) (r_createdAt r)
     (Some now) (r_matchCount r + 1) (r_kind r) (r_match r) (r_source r)
     (r_originalCondition r), true).

Definition trimmed_ok (p : jsstr) : Prop :=
  p <> [] /\ isSpace (hd 0 p) = false /\ isSpace (List.last p 0) = false.

(** Sample inputs of the engine and the store. *)
Definition ex_match (t : Z) : RuleMatch :=
  mkRuleMatch (u "rule_p") (u "ts sources") RTPattern t (u "File src/a.ts was created")
    None None None None None.

Definition ex_event : FileEvent := mkEvent Created (u "src/a.ts") 1000.

Definition ex_params : AddRuleParams :=
  mkAddRuleParams (u "ts created") (u "") (u "any .ts file created")
    (mkCompiled RTPattern (mkMatch None None (Some [u ".ts"]) (Some [Created])) None None)
    SrcManual.

(* ================================================================== *)
(** * Proofs *)

(* ------------------------------------------------------------------ *)
(** ** Threshold windows *)

Lemma filter_window_mono (M tp t : Z) (l : list Z) :
  tp <= t ->
  List.filter (fun s => t - s <=? M) (List.filter (fun s => tp - s <=? M) l)
  = List.filter (fun s => t - s <=? M) l.
Proof.
  intros Hle. induction l as [|s l IH]; simpl; [reflexivity|].
  destruct (tp - s <=? M) eqn:E1; simpl.
  - destruct (t - s <=? M); rewrite IH; reflexivity.
  - destruct (t - s <=? M) eqn:E2; [|exact IH].
    apply Z.leb_le in E2. apply Z.leb_gt in E1. lia.
Qed.

Lemma evaluateRule_unmatched e rule now tw :
  matchesFilter e (r_match rule) = false ->
  evaluateRule e rule now tw = (None, tw).
Proof. intros H. unfold evaluateRule. rewrite H. reflexivity. Qed.

Lemma evaluateRule_threshold e rule now tw W N :
  matchesFilter e (r_match rule) = true ->
  r_kind rule = ThresholdRule W N ->
  let '(fire, _, stored) := threshold_step W N now (default [] (tw !! r_id rule)) in
  isSome (fst (evaluateRule e rule now tw)) = fire /\
  snd (evaluateRule e rule now tw) = <[r_id rule := stored]> tw.
Proof.
  intros Hm Hk. unfold evaluateRule. rewrite Hm, Hk. simpl.
  unfold threshold_step.
  destruct (N <=? _); simpl; split; reflexivity.
Qed.

Lemma fires_spec_gen rule W N :
  r_kind rule = ThresholdRule W N ->
  forall evs tw since tp,
  default [] (tw !! r_id rule) = List.filter (fun s => tp - s <=? W * 1000) since ->
  Sorted Z.le (map snd evs) ->
  Forall (fun t => tp <= t) (map snd evs) ->
  fires rule evs tw
  = spec_threshold_fires (fun e => matchesFilter e (r_match rule)) W N since evs.
Proof.
  intros Hk evs. induction evs as [|[e now] evs IH]; intros tw since tp Hw Hs Hf;
    [reflexivity|].
  simpl in Hs, Hf. inversion Hf as [|? ? Htp Hf']; subst.
  assert (Hs' : Sorted Z.le (map snd evs)) by (inversion Hs; assumption).
  assert (Hf2 : Forall (fun t => now <= t) (map snd evs))
    by (apply Sorted_extends; [intros ???; lia|exact Hs]).
  simpl. destruct (matchesFilter e (r_match rule)) eqn:Hm.
  - pose proof (evaluateRule_threshold e rule now tw W N Hm Hk) as Hev.
    destruct (evaluateRule e rule now tw) as [m tw'] eqn:Hr.
    rewrite Hw in Hev. unfold threshold_step in Hev.
    rewrite List.filter_app, filter_window_mono in Hev by exact Htp.
    rewrite <- List.filter_app in Hev. simpl in Hev.
    destruct (N <=? _) eqn:Hc; destruct Hev as [Hf1 Ht]; simpl in Hf1, Ht;
      subst tw'; rewrite Hf1; f_equal.
    + apply (IH _ [] now); [|exact Hs'|exact Hf2].
      rewrite lookup_insert_eq. reflexivity.
    + apply (IH _ (since ++ [now]) now); [|exact Hs'|exact Hf2].
      rewrite lookup_insert_eq. reflexivity.
  - rewrite evaluateRule_unmatched by exact Hm. simpl. f_equal.
    exact (IH _ since tp Hw Hs' Hf').
Qed.

Lemma spec_threshold_fresh q W N evs :
  forall since,
  Z.of_nat (length since) + Z.of_nat (length (List.filter (fun p => q (fst p)) evs)) < N ->
  ~ In true (spec_threshold_fires q W N since evs).
Proof.
  induction evs as [|[e now] evs IH]; intros since Hlt; simpl; [tauto|].
  simpl in Hlt. destruct (q e) eqn:Hq; simpl in Hlt.
  - assert (Hlen : Z.of_nat (length (List.filter (fun t => now - t <=? W * 1000) (since ++ [now])))
                   <= Z.of_nat (length since) + 1).
    { pose proof (List.filter_length_le (fun t => now - t <=? W * 1000) (since ++ [now])) as Hl.
      rewrite length_app in Hl. simpl in Hl. lia. }
    destruct (N <=? _) eqn:Hc; [apply Z.leb_le in Hc; lia|].
    intros [H|H]; [discriminate|].
    revert H. apply IH. rewrite length_app. simpl. lia.
  - intros [H|H]; [discriminate|]. revert H. apply IH. exact Hlt.
Qed.

Lemma sorted_hd_forall (l : list Z) :
  Sorted Z.le l -> Forall (fun t => hd 0 l <= t) l.
Proof.
  intros Hs. destruct l as [|t l]; constructor; [simpl; lia|].
  apply Sorted_extends; [intros ???; lia|exact Hs].
Qed.

(** C1: for an enabled threshold rule with [count = N] and [windowSeconds =
    W], evaluated on a sequence of events (with non-decreasing clock
    readings) from an empty window, the rule fires exactly when the
    specification's counting says: on the qualifying event that brings the
    number of qualifying events since the last firing that lie within W
    seconds to N; a firing resets the rule's window list to empty, and fewer
    than N qualifying events never fire it. *)
Theorem threshold_fires_on_nth_and_resets (rule : Rule) (W N : Z)
    (evs : list (FileEvent * Z)) (tw : Windows)
    (Hk : r_kind rule = ThresholdRule W N)
    (Hw : default [] (tw !! r_id rule) = [])
    (Hs : Sorted Z.le (map snd evs)) :
  fires rule evs tw
    = spec_threshold_fires (fun e => matchesFilter e (r_match rule)) W N [] evs /\
  (forall e now tw0 m tw1,
     evaluateRule e rule now tw0 = (Some m, tw1) -> tw1 !! r_id rule = Some []) /\
  (Z.of_nat (length (List.filter (fun p => matchesFilter (fst p) (r_match rule)) evs)) < N ->
   ~ In true (fires rule evs tw)).
Proof.
  assert (Heq : fires rule evs tw
                = spec_threshold_fires (fun e => matchesFilter e (r_match rule)) W N [] evs).
  { apply (fires_spec_gen rule W N Hk evs tw [] (hd 0 (map snd evs))); [exact Hw|exact Hs|].
    apply sorted_hd_forall, Hs. }
  split; [exact Heq|split].
  - intros e now tw0 m tw1 Hev. unfold evaluateRule in Hev.
    destruct (matchesFilter e (r_match rule)); simpl in Hev; [|discriminate].
    rewrite Hk in Hev. unfold threshold_step in Hev.
    destruct (N <=? _); inversion Hev; subst. apply lookup_insert_eq.
  - intros Hlt. rewrite Heq. apply spec_threshold_fresh. simpl. lia.
Qed.

Lemma threshold_fires_on_nth_and_resets_witness :
  (r_kind ex_threshold_rule = ThresholdRule 60 3 /\
   default [] ((∅ : Windows) !! r_id ex_threshold_rule) = [] /\
   Sorted Z.le [0; 1000; 2000; 3000; 4000; 5000]) /\
  let evs := map (fun t => (mkEvent Modified (u "src/a.ts") t, t))
                 [0; 1000; 2000; 3000; 4000; 5000] in
  (fires ex_threshold_rule evs ∅
     = spec_threshold_fires (fun e => matchesFilter e (r_match ex_threshold_rule)) 60 3 [] evs /\
   (forall e now tw0 m tw1,
      evaluateRule e ex_threshold_rule now tw0 = (Some m, tw1) ->
      tw1 !! r_id ex_threshold_rule = Some []) /\
   (Z.of_nat (length (List.filter (fun p => matchesFilter (fst p) (r_match ex_threshold_rule)) evs)) < 3 ->
    ~ In true (fires ex_threshold_rule evs ∅))).
Proof.
  split; [split; [reflexivity|split; [reflexivity|repeat first [lia|constructor]]]|].
  apply (threshold_fires_on_nth_and_resets ex_threshold_rule 60 3); [reflexivity|reflexivity|].
  simpl. repeat first [lia|constructor].
Defined.

(** On six qualifying events one second apart, the rule with [count = 3]
    fires on the third and on the sixth event. *)
Example threshold_fires_every_third :
  fires ex_threshold_rule
    (map (fun t => (mkEvent Modified (u "src/a.ts") t, t)) [0; 1000; 2000; 3000; 4000; 5000]) ∅
  = [false; false; true; false; false; true].
Proof. vm_compute. reflexivity. Qed.

(** Events further apart than the window are pruned: three events 61 s
    apart never fire the rule. *)
Example threshold_prunes_old :
  fires ex_threshold_rule
    (map (fun t => (mkEvent Modified (u "src/a.ts") t, t)) [0; 61000; 122000]) ∅
  = [false; false; false].
Proof. vm_compute. reflexivity. Qed.

(* ------------------------------------------------------------------ *)
(** ** Match filters *)

Lemma nonEmpty_cases {A} (o : option (list A)) :
  (nonEmpty o = None /\ opt_list o = []) \/
  (nonEmpty o = Some (opt_list o) /\ opt_list o <> []).
Proof.
  destruct o as [[|x xs]|]; simpl; [left|right|left]; split; try reflexivity; congruence.
Qed.

Lemma existsb_false_Forall {A} (f : A -> bool) (l : list A) :
  existsb f l = false <-> Forall (fun x => f x = false) l.
Proof.
  induction l as [|x l IH]; simpl; [split; constructor + reflexivity|].
  rewrite orb_false_iff, IH, Forall_cons_iff. tauto.
Qed.

Lemma existsb_true_Exists {A} (f : A -> bool) (l : list A) :
  existsb f l = true <-> Exists (fun x => f x = true) l.
Proof. rewrite existsb_exists, List.Exists_exists. reflexivity. Qed.

Lemma str_mem_In (x : jsstr) (xs : list jsstr) : str_mem x xs = true <-> In x xs.
Proof.
  unfold str_mem. rewrite existsb_exists. split.
  - intros [y [Hy He]]. unfold jsstr_eqb in He. destruct (decide (x = y)); [subst; exact Hy|discriminate].
  - intros H. exists x. split; [exact H|]. unfold jsstr_eqb. destruct (decide (x = x)); congruence.
Qed.

Lemma EventType_eqb_true (a b : EventType) : EventType_eqb a b = true <-> a = b.
Proof. destruct a, b; simpl; split; congruence. Qed.

Lemma existsb_EventType_In (a : EventType) (l : list EventType) :
  existsb (EventType_eqb a) l = true <-> In a l.
Proof.
  rewrite existsb_exists. split.
  - intros [b [Hb He]]. apply EventType_eqb_true in He. subst. exact Hb.
  - intros H. exists a. split; [exact H|]. apply EventType_eqb_true. reflexivity.
Qed.

Lemma matchesFilter_conj (event : FileEvent) (m : MatchFilter) :
  matchesFilter event m =
  negb (match nonEmpty (pathExcludes m) with
        | Some xs => existsb (fun exc => includes (toLowerCase (ev_path event)) (toLowerCase exc)) xs
        | None => false end) &&
  (match nonEmpty (pathIncludes m) with
   | Some xs => existsb (fun inc => includes (toLowerCase (ev_path event)) (toLowerCase inc)) xs
   | None => true end) &&
  (match nonEmpty (extensions m) with
   | Some xs => str_mem (toLowerCase (extname (ev_path event))) (map toLowerCase xs)
   | None => true end) &&
  (match nonEmpty (eventTypes m) with
   | Some ts => existsb (EventType_eqb (ev_type event)) ts
   | None => true end).
Proof.
  unfold matchesFilter.
  destruct (match nonEmpty (pathExcludes m) with Some _ => _ | None => _ end); [reflexivity|].
  destruct (match nonEmpty (pathIncludes m) with Some _ => _ | None => _ end); [|reflexivity].
  destruct (match nonEmpty (extensions m) with Some _ => _ | None => _ end); reflexivity.
Qed.

Lemma nonEmpty_true {A} (o : option (list A)) (P : list A -> bool) :
  (match nonEmpty o with Some xs => P xs | None => true end) = true <->
  opt_list o = [] \/ P (opt_list o) = true.
Proof.
  destruct (nonEmpty_cases o) as [[E L]|[E L]]; rewrite E; rewrite ?L; intuition.
Qed.

Lemma nonEmpty_false {A} (o : option (list A)) (P : list A -> bool) :
  (forall xs, xs = [] -> P xs = false) ->
  (match nonEmpty o with Some xs => P xs | None => false end) = false <->
  P (opt_list o) = false.
Proof.
  intros HP. destruct (nonEmpty_cases o) as [[E L]|[E L]]; rewrite E; rewrite ?L.
  - split; [intros _; apply HP; reflexivity|reflexivity].
  - reflexivity.
Qed.

(** C2: [matchesFilter] holds exactly when no exclusion fragment is a
    case-insensitive substring of the path, some inclusion fragment is one
    (when inclusions are given), the path's extension is, ignoring case, one
    of the listed extensions (when given), and the event type is listed
    (when event types are given); absent and empty lists constrain nothing.
    On the specification's example, the pattern rule on [src/] [.ts] files
    [created] fires on a created [src/app.ts] only. *)
Theorem matchesFilter_iff_constraints :
  (forall (event : FileEvent) (m : MatchFilter),
    matchesFilter event m = true <->
    Forall (fun exc => includes (toLowerCase (ev_path event)) (toLowerCase exc) = false)
           (opt_list (pathExcludes m)) /\
    (opt_list (pathIncludes m) = [] \/
     Exists (fun inc => includes (toLowerCase (ev_path event)) (toLowerCase inc) = true)
            (opt_list (pathIncludes m))) /\
    (opt_list (extensions m) = [] \/
     In (toLowerCase (extname (ev_path event))) (map toLowerCase (opt_list (extensions m)))) /\
    (opt_list (eventTypes m) = [] \/ In (ev_type event) (opt_list (eventTypes m)))) /\
  isSome (fst (evaluateRule (mkEvent Created (u "src/app.ts") 0) ex_pattern_rule 0 ∅)) = true /\
  isSome (fst (evaluateRule (mkEvent Modified (u "src/app.ts") 0) ex_pattern_rule 0 ∅)) = false /\
  isSome (fst (evaluateRule (mkEvent Created (u "lib/app.ts") 0) ex_pattern_rule 0 ∅)) = false.
Proof.
  split; [|vm_compute; repeat split; reflexivity].
  intros event m. rewrite matchesFilter_conj, !andb_true_iff, negb_true_iff.
  rewrite nonEmpty_false, !nonEmpty_true.
  - rewrite existsb_false_Forall, existsb_true_Exists, str_mem_In, existsb_EventType_In.
    tauto.
  - intros xs ->. reflexivity.
Qed.

(* ------------------------------------------------------------------ *)
(** ** Intent extraction *)

(** C3: when the condition mentions a "change" word and no
    create/modify/delete word, the intent's event types are
    [created, modified]; with a delete word (and no create/modify word) they
    are [modified, deleted]; and for every condition the event types are
    listed in the order created, modified, deleted, without repetition. *)
Theorem extractIntent_eventTypes_canonical (condition : jsstr) :
  (test re_change (toLowerCase condition) = true ->
   test re_delete (toLowerCase condition) = false ->
   test re_create (toLowerCase condition) = false ->
   test re_modify (toLowerCase condition) = false ->
   ri_eventTypes (extractIntent condition) = [Created; Modified]) /\
  (test re_change (toLowerCase condition) = true ->
   test re_delete (toLowerCase condition) = true ->
   test re_create (toLowerCase condition) = false ->
   test re_modify (toLowerCase condition) = false ->
   ri_eventTypes (extractIntent condition) = [Modified; Deleted]) /\
  ri_eventTypes (extractIntent condition)
  = List.filter (fun e => ev_mem e (ri_eventTypes (extractIntent condition))) EVENT_ORDER.
Proof.
  unfold extractIntent. simpl ri_eventTypes.
  destruct (test re_delete (toLowerCase condition)),
           (test re_create (toLowerCase condition)),
           (test re_modify (toLowerCase condition)),
           (test re_change (toLowerCase condition));
  repeat split; intros; try discriminate; reflexivity.
Qed.

(** Both premises of C3 are met by concrete conditions. *)
Example extractIntent_change_only :
  let c := u "Alert when TypeScript files change" in
  test re_change (toLowerCase c) = true /\ test re_delete (toLowerCase c) = false /\
  test re_create (toLowerCase c) = false /\ test re_modify (toLowerCase c) = false /\
  ri_eventTypes (extractIntent c) = [Created; Modified].
Proof. vm_compute. repeat split. Qed.

Example extractIntent_change_delete :
  let c := u "Notify me when a file in src/components is deleted or changed" in
  test re_change (toLowerCase c) = true /\ test re_delete (toLowerCase c) = true /\
  test re_create (toLowerCase c) = false /\ test re_modify (toLowerCase c) = false /\
  ri_eventTypes (extractIntent c) = [Modified; Deleted].
Proof. vm_compute. repeat split. Qed.

(** C4: on the condition "If 3 or more files under __tests__/ are changed
    within 5 minutes" the intent has count 3, a window of 300 seconds and the
    path fragment [__tests__/]. *)
Theorem extractIntent_tests_threshold :
  ri_count (extractIntent (u "If 3 or more files under __tests__/ are changed within 5 minutes"))
    = Some 3 /\
  ri_windowSeconds (extractIntent (u "If 3 or more files under __tests__/ are changed within 5 minutes"))
    = Some 300 /\
  In (u "__tests__/")
     (ri_pathIncludes (extractIntent (u "If 3 or more files under __tests__/ are changed within 5 minutes"))).
Proof. vm_compute. split; [reflexivity|split; [reflexivity|left; reflexivity]]. Qed.

(* ------------------------------------------------------------------ *)
(** ** Alignment of compiled rules *)

(** C7: when the intent of the condition has both a count and a window, the
    aligned rule is a threshold rule with exactly these values, whatever the
    model emitted; otherwise a threshold rule from the model becomes a
    pattern rule without count and window. *)
Theorem alignRuleToIntent_threshold_from_intent (condition : jsstr) (rule : CompiledRule) :
  (forall c w,
     ri_count (extractIntent condition) = Some c ->
     ri_windowSeconds (extractIntent condition) = Some w ->
     cr_type (alignRuleToIntent condition rule) = RTThreshold /\
     cr_count (alignRuleToIntent condition rule) = Some c /\
     cr_windowSeconds (alignRuleToIntent condition rule) = Some w) /\
  ((ri_count (extractIntent condition) = None \/ ri_windowSeconds (extractIntent condition) = None) ->
   cr_type rule = RTThreshold ->
   cr_type (alignRuleToIntent condition rule) = RTPattern /\
   cr_count (alignRuleToIntent condition rule) = None /\
   cr_windowSeconds (alignRuleToIntent condition rule) = None).
Proof.
  unfold alignRuleToIntent.
  generalize (test re_exclusion condition) as b. intros b.
  generalize (extractIntent condition) as I. intros [ets exts ps cnt ws].
  cbn [ri_count ri_windowSeconds].
  destruct cnt as [c0|], ws as [w0|]; cbn [isSome andb]; split; intros.
  all: repeat match goal with
       | H : _ \/ _ |- _ => destruct H
       | H : Some _ = Some _ |- _ => injection H as H; subst
       end; try discriminate.
  all: try (repeat split; reflexivity).
  all: match goal with H : cr_type _ = RTThreshold |- _ => rewrite H end;
       repeat split; reflexivity.
Qed.

(** The model's own type and numbers are overwritten: a pattern rule with
    no numbers becomes the threshold rule of the condition. *)
Example alignRuleToIntent_example :
  let r := alignRuleToIntent (u "If 3 or more files under __tests__/ are changed within 5 minutes")
             (mkCompiled RTPattern (mkMatch None None None None) None None) in
  cr_type r = RTThreshold /\ cr_count r = Some 3 /\ cr_windowSeconds r = Some 300.
Proof. vm_compute. repeat split. Qed.

(* ------------------------------------------------------------------ *)
(** ** Validation *)

(** C6: a compiled rule whose filter has neither a non-empty [pathIncludes]
    nor a non-empty [extensions] is invalid, with an error on [match],
    whatever its other fields. *)
Theorem validateCompiledRule_rejects_broad (rule : CompiledRule)
    (Hinc : opt_list (pathIncludes (cr_match rule)) = [])
    (Hext : opt_list (extensions (cr_match rule)) = []) :
  vr_valid (validateCompiledRule rule) = false /\
  exists msg, In (mkError (u "match") msg) (vr_errors (validateCompiledRule rule)).
Proof.
  unfold validateCompiledRule.
  assert (Hb : isSome (nonEmpty (pathIncludes (cr_match rule))) ||
               isSome (nonEmpty (extensions (cr_match rule))) = false).
  { destruct (pathIncludes (cr_match rule)) as [[|]|], (extensions (cr_match rule)) as [[|]|];
      simpl in *; try discriminate; reflexivity. }
  rewrite Hb. simpl. split.
  - apply Nat.eqb_neq. rewrite !length_app. simpl. lia.
  - eexists. rewrite !in_app_iff. right. right. left. reflexivity.
Qed.

Lemma validateCompiledRule_rejects_broad_witness :
  (opt_list (pathIncludes (cr_match (mkCompiled RTThreshold
      (mkMatch (Some []) (Some [u "node_modules/"]) None (Some [Created])) (Some 60) (Some 3))))
     = [] /\
   opt_list (extensions (cr_match (mkCompiled RTThreshold
      (mkMatch (Some []) (Some [u "node_modules/"]) None (Some [Created])) (Some 60) (Some 3))))
     = []) /\
  (vr_valid (validateCompiledRule (mkCompiled RTThreshold
      (mkMatch (Some []) (Some [u "node_modules/"]) None (Some [Created])) (Some 60) (Some 3)))
     = false /\
   exists msg, In (mkError (u "match") msg)
     (vr_errors (validateCompiledRule (mkCompiled RTThreshold
        (mkMatch (Some []) (Some [u "node_modules/"]) None (Some [Created])) (Some 60) (Some 3))))).
Proof.
  split; [split; reflexivity|].
  apply validateCompiledRule_rejects_broad; reflexivity.
Defined.

(* ------------------------------------------------------------------ *)
(** ** Updates of stored rules *)

Lemma applyAllowed_frame (r : Rule) (updates : RuleUpdates) :
  let r' := fst (applyAllowed r updates) in
  r' = set_enabled (set_description (set_name r (r_name r')) (r_description r')) (r_enabled r').
Proof.
  destruct r; unfold applyAllowed;
  destruct (up_name updates), (up_description updates), (up_enabled updates); reflexivity.
Qed.

(** C8: [updateRule] changes no field of any stored rule besides [name],
    [description] and [enabled], whatever the [updates] object holds: the
    type, filter, window, count, id, creation time, source, original
    condition, match count and last match time are those of before. *)
Theorem updateRule_frame (id : jsstr) (updates : RuleUpdates) (rules : list Rule) :
  Forall2 (fun r r' =>
      r' = set_enabled (set_description (set_name r (r_name r')) (r_description r')) (r_enabled r'))
    rules (snd (updateRule id updates rules)).
Proof.
  assert (Hrefl : forall l : list Rule, Forall2 (fun r r' =>
      r' = set_enabled (set_description (set_name r (r_name r')) (r_description r')) (r_enabled r'))
      l l).
  { induction l as [|[] l IH]; constructor; [reflexivity|exact IH]. }
  unfold updateRule.
  destruct (update_first id (fun r => applyAllowed r updates) rules) as [[rules' c]|] eqn:E;
    [|apply Hrefl].
  simpl. revert rules' c E. induction rules as [|r rs IH]; intros rules' c E; simpl in E;
    [discriminate|].
  destruct (jsstr_eqb (r_id r) id).
  - destruct (applyAllowed r updates) as [r' c'] eqn:Ea. injection E as <- <-.
    constructor; [|apply Hrefl].
    pose proof (applyAllowed_frame r updates) as Hf. rewrite Ea in Hf. exact Hf.
  - destruct (update_first id _ rs) as [[rs' c']|] eqn:E'; [|discriminate].
    injection E as <- <-. constructor; [destruct r; reflexivity|]. eapply IH. reflexivity.
Qed.

(* ------------------------------------------------------------------ *)
(** ** Events on rejected paths *)

(** C10: when the security validator rejects the event's resolved path,
    [evaluateEvent] returns no match and only increments [eventsObserved]:
    windows, recent matches, stored rules, [rulesEvaluated] and [matches]
    are untouched. *)
Theorem evaluateEvent_rejected_path validateFilePath resolve watchDir clock
    (event : FileEvent) (st : Engine)
    (Hinvalid : validateFilePath (resolve watchDir (ev_path event)) = false) :
  evaluateEvent validateFilePath resolve watchDir clock event st =
  ([], mkEngine (mkStats (eventsObserved (stats st) + 1) (rulesEvaluated (stats st))
                         (matches (stats st)))
                (recentMatches st) (recentMatchLimit st) (thresholdWindows st) (storeRules st)).
Proof. unfold evaluateEvent. rewrite Hinvalid. reflexivity. Qed.

Lemma evaluateEvent_rejected_path_witness :
  (fun _ => false) (resolve_example (u "/srv/watched") (u "../etc/passwd.ts")) = false /\
  evaluateEvent (fun _ => false) resolve_example (u "/srv/watched") (fun _ => 0)
    (mkEvent Created (u "../etc/passwd.ts") 0) ex_engine =
  ([], mkEngine (mkStats (eventsObserved (stats ex_engine) + 1) (rulesEvaluated (stats ex_engine))
                         (matches (stats ex_engine)))
                (recentMatches ex_engine) (recentMatchLimit ex_engine)
                (thresholdWindows ex_engine) (storeRules ex_engine)).
Proof.
  split; [reflexivity|].
  apply (evaluateEvent_rejected_path (fun _ => false) resolve_example (u "/srv/watched") (fun _ => 0)).
  reflexivity.
Defined.

(* ------------------------------------------------------------------ *)
(** ** The rule signature *)

Section SortUnique.
Variable cmp : jsstr -> jsstr -> comparison.
Hypothesis cmp_opp : forall a b, cmp b a = CompOpp (cmp a b).
Hypothesis cmp_trans : forall a b c, cmp a b <> Gt -> cmp b c <> Gt -> cmp a c <> Gt.

Definition cmp_le (a b : jsstr) : Prop := cmp a b <> Gt.

Lemma insertSorted_perm (x : jsstr) (l : list jsstr) :
  Permutation (insertSorted cmp x l) (x :: l).
Proof.
  induction l as [|y l IH]; simpl; [reflexivity|].
  destruct (cmp x y); try reflexivity;
    (etransitivity; [apply perm_skip, IH|apply perm_swap]).
Qed.

Lemma insertSorted_sorted (x : jsstr) (l : list jsstr) :
  StronglySorted cmp_le l -> StronglySorted cmp_le (insertSorted cmp x l).
Proof.
  induction l as [|y l IH]; intros Hs; simpl.
  - repeat constructor.
  - inversion Hs as [|? ? Hl Hy]; subst.
    destruct (cmp x y) eqn:Hxy.
    + constructor; [exact (IH Hl)|].
      eapply Permutation_Forall; [symmetry; apply insertSorted_perm|].
      constructor; [|exact Hy]. unfold cmp_le. rewrite cmp_opp, Hxy. discriminate.
    + constructor; [exact Hs|]. constructor; [unfold cmp_le; congruence|].
      eapply Forall_impl; [exact Hy|]. intros z Hz. apply (cmp_trans x y z); [congruence|exact Hz].
    + constructor; [exact (IH Hl)|].
      eapply Permutation_Forall; [symmetry; apply insertSorted_perm|].
      constructor; [|exact Hy]. unfold cmp_le. rewrite cmp_opp, Hxy. discriminate.
Qed.

Lemma sortStrings_acc (l acc : list jsstr) :
  StronglySorted cmp_le acc ->
  StronglySorted cmp_le (fold_left (fun acc x => insertSorted cmp x acc) l acc) /\
  Permutation (fold_left (fun acc x => insertSorted cmp x acc) l acc) (l ++ acc).
Proof.
  revert acc. induction l as [|x l IH]; intros acc Hs; simpl.
  - split; [exact Hs|reflexivity].
  - destruct (IH (insertSorted cmp x acc) (insertSorted_sorted x acc Hs)) as [H1 H2].
    split; [exact H1|].
    rewrite H2, insertSorted_perm. symmetry. apply Permutation_middle.
Qed.

Lemma sortStrings_spec (l : list jsstr) :
  StronglySorted cmp_le (sortStrings cmp l) /\ Permutation (sortStrings cmp l) l.
Proof.
  unfold sortStrings. destruct (sortStrings_acc l [] (SSorted_nil _)) as [H1 H2].
  rewrite app_nil_r in H2. split; assumption.
Qed.

(** Two lists sorted by a comparator that ties no two of their distinct
    elements, with the same elements and no repetition, are equal. *)
Lemma sorted_unique (l1 l2 : list jsstr) :
  StronglySorted cmp_le l1 -> StronglySorted cmp_le l2 -> NoDup l1 -> NoDup l2 ->
  (forall s, In s l1 <-> In s l2) ->
  (forall a b, In a l1 -> In b l1 -> cmp a b = Eq -> a = b) ->
  l1 = l2.
Proof.
  revert l2. induction l1 as [|x t1 IH]; intros l2 S1 S2 N1 N2 Hin Htie.
  - destruct l2 as [|y t2]; [reflexivity|].
    exfalso. apply (proj2 (Hin y)). left. reflexivity.
  - destruct l2 as [|y t2]; [exfalso; apply (proj1 (Hin x)); left; reflexivity|].
    inversion S1 as [|? ? S1' F1]; subst. inversion S2 as [|? ? S2' F2]; subst.
    inversion N1 as [|? ? Nx N1']; subst. inversion N2 as [|? ? Ny N2']; subst.
    assert (Hxy : x = y).
    { destruct (decide (x = y)) as [e|ne]; [exact e|].
      assert (Hy1 : In y t1).
      { destruct (proj2 (Hin y) (or_introl eq_refl)) as [e|i]; [congruence|exact i]. }
      assert (Hx2 : In x t2).
      { destruct (proj1 (Hin x) (or_introl eq_refl)) as [e|i]; [congruence|exact i]. }
      apply Htie; [left; reflexivity|right; exact Hy1|].
      pose proof (proj1 (List.Forall_forall _ _) F1 y Hy1) as Lxy.
      pose proof (proj1 (List.Forall_forall _ _) F2 x Hx2) as Lyx.
      unfold cmp_le in *. rewrite cmp_opp in Lyx.
      destruct (cmp x y); simpl in *; congruence. }
    subst y. f_equal. apply IH; try assumption.
    + intros s. split; intros Hs.
      * destruct (proj1 (Hin s) (or_intror Hs)) as [e|i]; [subst; exfalso; apply Nx; apply list_elem_of_In; exact Hs|exact i].
      * destruct (proj2 (Hin s) (or_intror Hs)) as [e|i]; [subst; exfalso; apply Ny; apply list_elem_of_In; exact Hs|exact i].
    + intros a b Ha Hb. apply Htie; right; assumption.
Qed.
End SortUnique.

Lemma dedupSet_acc (l acc : list jsstr) :
  NoDup acc ->
  NoDup (fold_left (fun acc v => set_add v acc) l acc) /\
  (forall s, In s (fold_left (fun acc v => set_add v acc) l acc) <-> In s acc \/ In s l).
Proof.
  revert acc. induction l as [|x l IH]; intros acc Hn; simpl.
  - split; [exact Hn|]. intros s. tauto.
  - assert (Hn' : NoDup (set_add x acc)).
    { unfold set_add. destruct (str_mem x acc) eqn:E; [exact Hn|].
      apply NoDup_app. split; [exact Hn|split].
      - intros y Hy Hy'. apply list_elem_of_singleton in Hy'. subst y.
        apply list_elem_of_In in Hy. apply str_mem_In in Hy. congruence.
      - apply NoDup_singleton. }
    destruct (IH _ Hn') as [H1 H2]. split; [exact H1|].
    intros s. rewrite H2. unfold set_add.
    destruct (str_mem x acc) eqn:E.
    + apply str_mem_In in E. split; [tauto|]. intros [H|[<-|H]]; tauto.
    + rewrite in_app_iff. simpl. intuition.
Qed.

Lemma dedupSet_spec (l : list jsstr) :
  NoDup (dedupSet l) /\ (forall s, In s (dedupSet l) <-> In s l).
Proof.
  unfold dedupSet. destruct (dedupSet_acc l [] NoDup_nil_2) as [H1 H2].
  split; [exact H1|]. intros s. rewrite H2. simpl. tauto.
Qed.

Lemma perm_In_iff (l l' : list jsstr) (s : jsstr) : Permutation l l' -> (In s l <-> In s l').
Proof. intros P. split; apply Permutation_in; [exact P|symmetry; exact P]. Qed.

Section NormalizeArray.
Variable cmp : jsstr -> jsstr -> comparison.
Hypothesis cmp_opp : forall a b, cmp b a = CompOpp (cmp a b).
Hypothesis cmp_trans : forall a b c, cmp a b <> Gt -> cmp b c <> Gt -> cmp a c <> Gt.

(** [normalizeArray] depends only on the set of normalized entries,
    provided the collation ties no two distinct entries. *)
Lemma normalizeArray_set (a b : option (list jsstr)) :
  (forall s, In s (normEntries a) <-> In s (normEntries b)) ->
  (forall x y, In x (normEntries a) -> In y (normEntries a) -> cmp x y = Eq -> x = y) ->
  normalizeArray cmp a = normalizeArray cmp b.
Proof.
  intros Hin Htie.
  assert (Hn : forall o, normalizeArray cmp o =
             match normEntries o with [] => None | _ => Some (sortStrings cmp (dedupSet (normEntries o))) end).
  { intros [vs|]; reflexivity. }
  rewrite !Hn.
  destruct (normEntries a) as [|x xs] eqn:Ea, (normEntries b) as [|y ys] eqn:Eb.
  - reflexivity.
  - exfalso. apply (proj2 (Hin y)). left. reflexivity.
  - exfalso. apply (proj1 (Hin x)). left. reflexivity.
  - f_equal. rewrite <- Ea, <- Eb in *.
    destruct (dedupSet_spec (normEntries a)) as [Na Ia].
    destruct (dedupSet_spec (normEntries b)) as [Nb Ib].
    destruct (sortStrings_spec cmp cmp_opp cmp_trans (dedupSet (normEntries a))) as [Sa Pa].
    destruct (sortStrings_spec cmp cmp_opp cmp_trans (dedupSet (normEntries b))) as [Sb Pb].
    apply (sorted_unique cmp cmp_opp); try assumption.
    + rewrite Pa; exact Na.
    + rewrite Pb; exact Nb.
    + intros s. rewrite (perm_In_iff _ _ _ Pa), (perm_In_iff _ _ _ Pb), Ia, Ib. apply Hin.
    + intros p q Hp Hq. apply Htie; [apply Ia, (perm_In_iff _ _ _ Pa), Hp|apply Ia, (perm_In_iff _ _ _ Pa), Hq].
Qed.
End NormalizeArray.

(** Two compiled rules whose match arrays hold the same normalized entries
    have the same signature, provided the collation ties no two distinct
    entries of an array. *)
Lemma ruleSignature_same_entries (cmp : jsstr -> jsstr -> comparison)
    (Hopp : forall a b, cmp b a = CompOpp (cmp a b))
    (Htrans : forall a b c, cmp a b <> Gt -> cmp b c <> Gt -> cmp a c <> Gt)
    (X Y : CompiledRule) :
  cr_type X = cr_type Y -> cr_windowSeconds X = cr_windowSeconds Y -> cr_count X = cr_count Y ->
  (forall f : MatchFilter -> option (list jsstr),
     In f [pathIncludes; pathExcludes; extensions;
           fun m => option_map (map eventTypeName) (eventTypes m)] ->
     (forall s, In s (normEntries (f (cr_match X))) <-> In s (normEntries (f (cr_match Y)))) /\
     (forall a b, In a (normEntries (f (cr_match X))) -> In b (normEntries (f (cr_match X))) ->
                  cmp a b = Eq -> a = b)) ->
  ruleSignatureFromCompiled cmp X = ruleSignatureFromCompiled cmp Y.
Proof.
  intros Ht Hw Hc Hf. unfold ruleSignatureFromCompiled, normalizedSignature.
  rewrite Ht, Hw, Hc.
  destruct (Hf _ (or_introl eq_refl)) as [I1 T1].
  destruct (Hf _ (or_intror (or_introl eq_refl))) as [I2 T2].
  destruct (Hf _ (or_intror (or_intror (or_introl eq_refl)))) as [I3 T3].
  destruct (Hf _ (or_intror (or_intror (or_intror (or_introl eq_refl))))) as [I4 T4].
  rewrite (normalizeArray_set cmp Hopp Htrans _ _ I1 T1), (normalizeArray_set cmp Hopp Htrans _ _ I2 T2),
    (normalizeArray_set cmp Hopp Htrans _ _ I3 T3), (normalizeArray_set cmp Hopp Htrans _ _ I4 T4).
  reflexivity.
Qed.

Lemma lexCompare_opp (a b : list Z) : lexCompare b a = CompOpp (lexCompare a b).
Proof.
  revert b. induction a as [|x a IH]; intros [|y b]; simpl; try reflexivity.
  rewrite (Z.compare_antisym x y). destruct (Z.compare x y); simpl; [apply IH|reflexivity|reflexivity].
Qed.

Lemma lexCompare_trans (a b c : list Z) :
  lexCompare a b <> Gt -> lexCompare b c <> Gt -> lexCompare a c <> Gt.
Proof.
  revert b c. induction a as [|x a IH]; intros [|y b] [|z c]; simpl; try congruence.
  destruct (Z.compare_spec x y) as [Hxy|Hxy|Hxy];
    destruct (Z.compare_spec y z) as [Hyz|Hyz|Hyz]; intros H1 H2; try congruence.
  - subst. rewrite Z.compare_refl. eapply IH; eassumption.
  - rewrite (proj2 (Z.compare_lt_iff x z)) by lia. discriminate.
  - rewrite (proj2 (Z.compare_lt_iff x z)) by lia. discriminate.
  - rewrite (proj2 (Z.compare_lt_iff x z)) by lia. discriminate.
Qed.

(** The collation model is a total preorder. *)
Lemma localeCompare_model_preorder :
  (forall a b, localeCompare_model b a = CompOpp (localeCompare_model a b)) /\
  (forall a b c, localeCompare_model a b <> Gt -> localeCompare_model b c <> Gt ->
                 localeCompare_model a c <> Gt).
Proof.
  unfold localeCompare_model. split.
  - intros a b. apply lexCompare_opp.
  - intros a b c. apply lexCompare_trans.
Qed.

(** C5: the signature is the JSON of the type, the sorted, lowercased and
    deduplicated match arrays (left out when empty) and [windowSeconds] and
    [count] defaulted to [null]; but it is not independent of the order of
    the arrays. [localeCompare] returns 0 for the distinct, canonically
    equivalent strings "é" (U+00E9) and "e" followed by U+0301, the stable
    sort keeps them in input order, and two rules whose [pathIncludes] hold
    the same two entries in opposite orders get different signatures. *)
Theorem ruleSignature_depends_on_order :
  normEntries (Some [[101; 769]; [233]]) = rev (normEntries (Some [[233]; [101; 769]])) /\
  localeCompare_model [233] [101; 769] = Eq /\
  ruleSignatureFromCompiled localeCompare_model (ex_accent_rule [[233]; [101; 769]]) =
    u "{" ++ jsonKey "type" ++ quoteJSON (u "pattern") ++ u "," ++ jsonKey "match" ++
    u "{" ++ jsonKey "pathIncludes" ++ u "[" ++ [34; 233; 34; 44; 34; 101; 769; 34] ++ u "]},"
    ++ jsonKey "windowSeconds" ++ u "null," ++ jsonKey "count" ++ u "null}" /\
  ruleSignatureFromCompiled localeCompare_model (ex_accent_rule [[233]; [101; 769]]) <>
  ruleSignatureFromCompiled localeCompare_model (ex_accent_rule [[101; 769]; [233]]).
Proof.
  split; [vm_compute; reflexivity|].
  split; [vm_compute; reflexivity|].
  split; [vm_compute; reflexivity|].
  vm_compute. congruence.
Qed.

(* ------------------------------------------------------------------ *)
(** ** The save queue *)

Ltac nat_cases :=
  repeat match goal with
  | |- context [Nat.ltb ?a ?b] => destruct (Nat.ltb_spec a b)
  | |- context [Nat.eqb ?a ?b] => destruct (Nat.eqb_spec a b)
  end; try lia.

Ltac pid_neq := solve [congruence | let E := fresh in intros E; injection E as E; lia].

Lemma upd_eq (h : PId -> PState) (p : PId) (v : PState) : upd h p v p = v.
Proof. unfold upd. case_decide; congruence. Qed.

Lemma upd_ne (h : PId -> PState) (p q : PId) (v : PState) : q <> p -> upd h p v q = h q.
Proof. intros Hne. unfold upd. case_decide; congruence. Qed.

Ltac canon_simpl := cbn -[Nat.ltb Nat.eqb upd updTask].
Ltac canon_simpl_in H := cbn -[Nat.ltb Nat.eqb upd updTask] in H.

Ltac heap_goal Hh :=
  let p := fresh "p" in
  intros p; unfold upd; repeat case_decide; subst; rewrite ?Hh;
  try (destruct p as [|?k|?k|?k]); canon_simpl; unfold nextReactions; nat_cases;
  try reflexivity; try (subst; congruence);
  try (match goal with H : ?C ?k <> ?C ?j |- _ =>
         assert (k = j) by lia; subst; congruence end);
  repeat match goal with
  | H : ?a = ?b |- _ => subst a
  | H : ?a = ?b |- _ => subst b
  end;
  try reflexivity; try congruence;
  try (match goal with ph : option Phase |- _ => destruct ph as [[]|] end; try reflexivity; congruence).

Lemma initState_inv : SaveInv initState.
Proof.
  exists O, None, (fun _ => Fulfilled). simpl.
  split; [right; split; reflexivity|].
  split; [intros [|k|k|k]; simpl; nat_cases; reflexivity|].
  split; [intros k; unfold canonTask; nat_cases; reflexivity|].
  repeat split; constructor.
Qed.

Lemma save_inv (s : State) : SaveInv s -> SaveInv (save s).
Proof.
  destruct s as [h q t n js tr].
  intros (f & ph & outc & Hwf & Hh & Ht & Hj & Hq & Hs & Hf); simpl in *. subst q js.
  unfold save, addReaction; canon_simpl.
  destruct Hwf as [[Hlt Hph]|[-> ->]].
  - destruct n as [|m]; [lia|]. canon_simpl.
    rewrite upd_ne by pid_neq. rewrite upd_ne by pid_neq.
    rewrite Hh. canon_simpl. nat_cases. unfold nextReactions. nat_cases. canon_simpl.
    rewrite upd_ne by pid_neq. rewrite upd_ne by pid_neq. rewrite upd_eq. canon_simpl.
    exists f, ph, outc. canon_simpl.
    split; [left; split; [lia|exact Hph]|].
    split; [heap_goal Hh|].
    split; [exact Ht|]. split; [reflexivity|]. split; [reflexivity|]. split; assumption.
  - destruct n as [|m]; canon_simpl.
    + rewrite upd_ne by pid_neq. rewrite upd_ne by pid_neq. rewrite Hh. canon_simpl.
      rewrite upd_ne by pid_neq. rewrite upd_eq. canon_simpl.
      exists O, (Some (PhQ1 Fulfilled)), outc. canon_simpl.
      split; [left; split; [lia|congruence]|].
      split; [heap_goal Hh|].
      split; [intros k; rewrite Ht; unfold canonTask; nat_cases; reflexivity|].
      split; [reflexivity|]. split; [reflexivity|]. split; assumption.
    + rewrite upd_ne by pid_neq. rewrite upd_ne by pid_neq. rewrite Hh. canon_simpl.
      nat_cases. canon_simpl. rewrite upd_ne by pid_neq. rewrite upd_eq. canon_simpl.
      exists (S m), (Some (PhQ1 (outc m))), outc. canon_simpl.
      split; [left; split; [lia|congruence]|].
      split; [heap_goal Hh|].
      split; [intros k; rewrite Ht; unfold canonTask; nat_cases; reflexivity|].
      split; [reflexivity|]. split; [reflexivity|]. split; assumption.
Qed.

Lemma trace_app (tr : list (nat * DiskOp)) (k : nat) (ops : list DiskOp) :
  StronglySorted le (map fst tr) -> Forall (fun e => fst e <= k)%nat tr ->
  StronglySorted le (map fst (tr ++ map (pair k) ops)) /\
  Forall (fun e => fst e <= k)%nat (tr ++ map (pair k) ops).
Proof.
  intros Hs Hf. split.
  - induction tr as [|[j op] tr IH]; simpl.
    + induction ops as [|op ops IHo]; simpl; constructor; [exact IHo|].
      rewrite map_map. simpl. apply List.Forall_forall. intros x Hx.
      apply in_map_iff in Hx. destruct Hx as [? [<- _]]. lia.
    + inversion Hs as [|? ? Hs' Hj]; subst. inversion Hf as [|? ? Hjk Hf']; subst.
      constructor; [exact (IH Hs' Hf')|].
      rewrite map_app. apply List.Forall_app. split; [exact Hj|].
      rewrite map_map. simpl. apply List.Forall_forall. intros x Hx.
      apply in_map_iff in Hx. destruct Hx as [? [<- _]]. simpl in Hjk. exact Hjk.
  - apply List.Forall_app. split; [exact Hf|].
    apply List.Forall_forall. intros x Hx. apply in_map_iff in Hx. destruct Hx as [? [<- _]]. simpl. lia.
Qed.

Lemma runJob_inv (s s' : State) : SaveInv s -> runJob s = Some s' -> SaveInv s'.
Proof.
  destruct s as [h q t n js tr].
  intros (f & ph & outc & Hwf & Hh & Ht & Hj & Hq & Hs & Hf) Hrun; simpl in *. subst q js.
  unfold runJob in Hrun. canon_simpl.
  destruct Hwf as [[Hlt Hph]|[-> ->]]; [|discriminate].
  destruct ph as [ph|]; [|congruence].
  destruct ph as [o| |pc|pc|o|o]; canon_simpl_in Hrun; try discriminate;
    injection Hrun as <-; unfold settle, startTask, addReaction; canon_simpl.
  - (* PhQ1: the catch reaction fulfills PCatch f *)
    rewrite Hh. canon_simpl. nat_cases. canon_simpl.
    exists f, (Some PhQ2), outc. canon_simpl.
    split; [left; split; [lia|congruence]|].
    split; [heap_goal Hh|].
    split; [intros k; rewrite Ht; unfold canonTask; nat_cases; reflexivity|].
    repeat split; assumption.
  - (* PhQ2: the then reaction calls the async callback *)
    exists f, (Some (PhRun1 AtWrite)), outc. canon_simpl.
    split; [left; split; [lia|congruence]|].
    split; [heap_goal Hh|].
    split; [intros k; unfold updTask; rewrite Ht; unfold canonTask; nat_cases; reflexivity|].
    split; [reflexivity|]. split; [reflexivity|].
    exact (trace_app tr f [OpWriteTemp] Hs Hf).
  - (* PhRun1: the thenable job subscribes to the callback's promise *)
    rewrite Hh. canon_simpl. nat_cases. canon_simpl.
    exists f, (Some (PhRun2 pc)), outc. canon_simpl.
    split; [left; split; [lia|congruence]|].
    split; [heap_goal Hh|].
    split; [intros k; rewrite Ht; unfold canonTask; nat_cases; reflexivity|].
    repeat split; assumption.
  - (* PhDone1: the callback's promise is already settled *)
    rewrite Hh. canon_simpl. nat_cases. canon_simpl.
    exists f, (Some (PhDone2 o)), outc. canon_simpl.
    split; [left; split; [lia|congruence]|].
    split; [exact Hh|].
    split; [intros k; rewrite Ht; unfold canonTask; nat_cases; reflexivity|].
    repeat split; assumption.
  - (* PhDone2: the then promise of save f settles *)
    rewrite Hh. canon_simpl. nat_cases. canon_simpl.
    exists (S f), (if Nat.ltb (S f) n then Some (PhQ1 o) else None),
      (fun k => if Nat.eqb k f then o else outc k). canon_simpl.
    split; [unfold nextReactions; destruct (Nat.ltb_spec (S f) n); [left; split; [lia|congruence]|right; split; [lia|reflexivity]]|].
    split.
    + intros p. unfold upd. case_decide; subst.
      * canon_simpl. nat_cases. reflexivity.
      * rewrite Hh. destruct p as [|k|k|k]; canon_simpl; nat_cases; unfold nextReactions; nat_cases;
          try reflexivity; try (subst; congruence);
          try (assert (k = f) by lia; subst; congruence).
    + split; [intros k; rewrite Ht; unfold canonTask; nat_cases; reflexivity|].
      split; [unfold nextReactions; destruct (Nat.ltb_spec (S f) n); reflexivity|].
      split; [reflexivity|]. split; [exact Hs|].
      eapply Forall_impl; [exact Hf|]. intros e He. simpl in *. lia.
Qed.

Lemma ioStep_not_idle (win32 : bool) (pc : Pc) (res : option ErrCode) :
  fst (ioStep win32 pc res) <> TIdle.
Proof.
  destruct pc, res; simpl; try discriminate.
  destruct (renameFallback win32 e); discriminate.
Qed.

Lemma ioDone_inv (win32 : bool) (s s' : State) (k : nat) (res : option ErrCode) :
  SaveInv s -> ioDone win32 s k res = Some s' -> SaveInv s'.
Proof.
  destruct s as [h q t n js tr].
  intros (f & ph & outc & Hwf & Hh & Ht & Hj & Hq & Hs & Hf) Hio; simpl in *. subst q js.
  unfold ioDone in Hio. canon_simpl_in Hio. rewrite Ht in Hio. unfold canonTask in Hio.
  destruct (Nat.ltb_spec k f); [discriminate|].
  destruct (Nat.eqb_spec k f); [subst k|discriminate].
  destruct Hwf as [[Hlt Hph]|[-> ->]]; [|discriminate].
  pose proof (ioStep_not_idle win32) as Hni.
  destruct ph as [[o| |pc|pc|o|o]|]; try discriminate;
    specialize (Hni pc res); destruct (ioStep win32 pc res) as [t' ops]; simpl in Hni;
    injection Hio as <-;
    destruct (trace_app tr f ops Hs Hf) as [Hs' Hf'];
    (destruct t' as [|pc'|o']; [congruence| |]).
  - (* PhRun1, the callback awaits again *)
    exists f, (Some (PhRun1 pc')), outc. canon_simpl.
    split; [left; split; [lia|congruence]|].
    split; [heap_goal Hh|].
    split; [intros k; unfold updTask; rewrite Ht; unfold canonTask; nat_cases; reflexivity|].
    repeat split; assumption.
  - (* PhRun1, the callback returns or throws *)
    unfold settle. canon_simpl. rewrite Hh. canon_simpl. nat_cases. canon_simpl.
    exists f, (Some (PhDone1 o')), outc. canon_simpl.
    split; [left; split; [lia|congruence]|].
    split; [heap_goal Hh|].
    split; [intros k; unfold updTask; rewrite Ht; unfold canonTask; nat_cases; reflexivity|].
    split; [rewrite ?app_nil_r; reflexivity|].
    repeat split; assumption.
  - (* PhRun2, the callback awaits again *)
    exists f, (Some (PhRun2 pc')), outc. canon_simpl.
    split; [left; split; [lia|congruence]|].
    split; [heap_goal Hh|].
    split; [intros k; unfold updTask; rewrite Ht; unfold canonTask; nat_cases; reflexivity|].
    repeat split; assumption.
  - (* PhRun2, the callback returns or throws *)
    unfold settle. canon_simpl. rewrite Hh. canon_simpl. nat_cases. canon_simpl.
    exists f, (Some (PhDone2 o')), outc. canon_simpl.
    split; [left; split; [lia|congruence]|].
    split; [heap_goal Hh|].
    split; [intros k; unfold updTask; rewrite Ht; unfold canonTask; nat_cases; reflexivity|].
    repeat split; assumption.
Qed.

Lemma step_inv (win32 : bool) (s s' : State) (a : Action) :
  SaveInv s -> step win32 s a = Some s' -> SaveInv s'.
Proof.
  intros Hinv Hstep. destruct a as [| |k res]; simpl in Hstep.
  - injection Hstep as <-. exact (save_inv s Hinv).
  - exact (runJob_inv s s' Hinv Hstep).
  - exact (ioDone_inv win32 s s' k res Hinv Hstep).
Qed.

Lemma run_inv (win32 : bool) (acts : list Action) (s s' : State) :
  SaveInv s -> run win32 acts s = Some s' -> SaveInv s'.
Proof.
  revert s. induction acts as [|a acts IH]; intros s Hinv Hrun; simpl in Hrun.
  - injection Hrun as <-. exact Hinv.
  - destruct (step win32 s a) as [s1|] eqn:E; [|discriminate].
    exact (IH s1 (step_inv win32 s s1 a Hinv E) Hrun).
Qed.

(** The demonstration run: the first save fails at [rename] and cleans up
    its temporary file, then the second save writes and renames. *)
Lemma demo_failed_save_then_next :
  run false demo_acts initState = Some demo_state /\
  st_trace demo_state =
    [(0, OpWriteTemp); (0, OpRename); (0, OpUnlink); (1, OpWriteTemp); (1, OpRename)]%nat /\
  st_tasks demo_state 0%nat = TDone Rejected /\ st_tasks demo_state 1%nat = TDone Fulfilled /\
  st_heap demo_state (PThen 1) = Settled Fulfilled /\ st_jobs demo_state = [].
Proof. vm_compute. repeat split; reflexivity. Qed.

(** C9: in every state reached from the initial store by any interleaving of
    [save] calls, microtask jobs and completions of file-system calls (on any
    platform, with any failures), at most one save callback is running; the
    callback of save [k+1] has started only once the promise of save [k] has
    settled and its callback has finished, whether it succeeded or failed;
    the file-system calls are issued in the order the saves were submitted;
    and as long as a submitted save has not finished, a microtask job is
    queued or a callback awaits a file-system call, so no save, failed or
    not, blocks the queue. *)
Theorem save_queue_serialized (win32 : bool) (acts : list Action) (s : State)
    (Hrun : run win32 acts initState = Some s) :
  (forall j k, isRunning (st_tasks s j) = true -> isRunning (st_tasks s k) = true -> j = k) /\
  (forall k, st_tasks s (S k) <> TIdle ->
     isSettled (st_heap s (PThen k)) = true /\ isDone (st_tasks s k) = true) /\
  StronglySorted le (map fst (st_trace s)) /\
  ((exists k, (k < st_nsaves s)%nat /\ isDone (st_tasks s k) = false) ->
     st_jobs s <> [] \/ exists k, isRunning (st_tasks s k) = true).
Proof.
  destruct (run_inv win32 acts initState s initState_inv Hrun)
    as (f & ph & outc & Hwf & Hh & Ht & Hj & Hq & Hs & Hf).
  split; [|split; [|split]].
  - intros j k Hj' Hk'. rewrite Ht in Hj', Hk'. unfold canonTask in Hj', Hk'.
    destruct (Nat.ltb_spec j f); [discriminate|].
    destruct (Nat.ltb_spec k f); [discriminate|].
    destruct (Nat.eqb_spec j f); [|discriminate].
    destruct (Nat.eqb_spec k f); [|discriminate]. congruence.
  - intros k Hk. rewrite Ht in Hk. rewrite Hh, Ht. unfold canonTask in Hk |- *. canon_simpl.
    destruct (Nat.ltb_spec (S k) f).
    + nat_cases. split; reflexivity.
    + destruct (Nat.eqb_spec (S k) f); [|congruence].
      nat_cases. split; reflexivity.
  - exact Hs.
  - intros (k & Hk & Hnd). rewrite Ht in Hnd. unfold canonTask in Hnd.
    destruct (Nat.ltb_spec k f); [discriminate|].
    destruct Hwf as [[Hlt Hph]|[Hn ->]]; [|lia].
    rewrite Hj. destruct ph as [[o| |pc|pc|o|o]|]; try congruence;
      try (left; discriminate).
    right. exists f. rewrite Ht. unfold canonTask. nat_cases. reflexivity.
Qed.

Lemma save_queue_serialized_witness :
  run false demo_acts initState = Some demo_state /\
  ((forall j k, isRunning (st_tasks demo_state j) = true ->
                isRunning (st_tasks demo_state k) = true -> j = k) /\
   (forall k, st_tasks demo_state (S k) <> TIdle ->
      isSettled (st_heap demo_state (PThen k)) = true /\ isDone (st_tasks demo_state k) = true) /\
   StronglySorted le (map fst (st_trace demo_state)) /\
   ((exists k, (k < st_nsaves demo_state)%nat /\ isDone (st_tasks demo_state k) = false) ->
      st_jobs demo_state <> [] \/ exists k, isRunning (st_tasks demo_state k) = true)).
Proof.
  split; [vm_compute; reflexivity|].
  apply (save_queue_serialized false demo_acts demo_state).
  vm_compute. reflexivity.
Defined.

(* ------------------------------------------------------------------ *)
(** ** Further properties of the compiler, validator, engine and store *)

Lemma span_refl P s i : span_ok P s i i.
Proof. split; [lia|]. intros; lia. Qed.

Lemma span_trans P s i j k : span_ok P s i j -> span_ok P s j k -> span_ok P s i k.
Proof.
  intros [H1 H2] [H3 H4]. split; [lia|]. intros t Ht.
  destruct (Nat.lt_ge_cases t j); [apply H2|apply H4]; lia.
Qed.

Lemma rmatch_only P r : only P r ->
  forall s i c k res, rmatch r s i c k = Some res ->
  exists j, span_ok P s i j /\ k j c = Some res.
Proof.
  induction r as [|p|r1 IH1 r2 IH2|r1 IH1 r2 IH2|r1 IH| |n r1 IH]; simpl; intros HO s i c k res H.
  - exists i. split; [apply span_refl|exact H].
  - destruct (nth_error s i) as [x|] eqn:E; [|discriminate].
    destruct (p x) eqn:Ep; [|discriminate].
    exists (S i). split; [|exact H]. split; [lia|].
    intros t Ht. assert (t = i) by lia. subst. exists x. auto.
  - destruct HO as [H1 H2].
    apply IH1 in H as (j1 & Hs1 & Hk); [|exact H1].
    apply IH2 in Hk as (j2 & Hs2 & Hk); [|exact H2].
    exists j2. split; [eapply span_trans; eauto|exact Hk].
  - destruct HO as [H1 H2].
    destruct (rmatch r1 s i c k) eqn:E.
    + injection H as <-. apply IH1 in E; auto.
    + apply IH2 in H; auto.
  - assert (Hstar : forall fuel i,
      (fix star (fuel i : nat) (c : captures) {struct fuel} : option (nat * captures) :=
         match fuel with
         | O => k i c
         | S f =>
             match rmatch r1 s i c (fun j c' => if Nat.leb j i then None else star f j c') with
             | Some res => Some res
             | None => k i c
             end
         end) fuel i c = Some res ->
      exists j, span_ok P s i j /\ k j c = Some res).
    { induction fuel as [|f IHf]; intros i' H'.
      - exists i'. split; [apply span_refl|exact H'].
      - destruct (rmatch r1 s i' c _) eqn:E.
        + injection H' as <-.
          apply IH in E as (j1 & Hs1 & Hk); [|exact HO].
          destruct (Nat.leb j1 i'); [discriminate|].
          apply IHf in Hk as (j2 & Hs2 & Hk).
          exists j2. split; [eapply span_trans; eauto|exact Hk].
        + exists i'. split; [apply span_refl|exact H']. }
    exact (Hstar (S (length s - i)) i H).
  - destruct (isBoundary s i); [|discriminate].
    exists i. split; [apply span_refl|exact H].
  - contradiction.
Qed.

Lemma rmatch_caps n P r : grp_ok n P r ->
  forall s i c k res (R : Prop),
  caps_ok n P s c ->
  (forall j c', caps_ok n P s c' -> k j c' = Some res -> R) ->
  rmatch r s i c k = Some res -> R.
Proof.
  induction r as [|p|r1 IH1 r2 IH2|r1 IH1 r2 IH2|r1 IH| |m r1 IH]; simpl;
    intros HG s i c k res R Hc Hk H.
  - exact (Hk _ _ Hc H).
  - destruct (nth_error s i); [|discriminate].
    destruct (p z); [exact (Hk _ _ Hc H)|discriminate].
  - destruct HG as [H1 H2].
    refine (IH1 H1 s i c _ res R Hc _ H).
    intros j c' Hc' H'. exact (IH2 H2 s j c' k res R Hc' Hk H').
  - destruct HG as [H1 H2].
    destruct (rmatch r1 s i c k) eqn:E.
    + injection H as <-. exact (IH1 H1 s i c k _ R Hc Hk E).
    + exact (IH2 H2 s i c k res R Hc Hk H).
  - assert (Hstar : forall fuel i c,
      caps_ok n P s c ->
      (fix star (fuel i : nat) (c : captures) {struct fuel} : option (nat * captures) :=
         match fuel with
         | O => k i c
         | S f =>
             match rmatch r1 s i c (fun j c' => if Nat.leb j i then None else star f j c') with
             | Some res => Some res
             | None => k i c
             end
         end) fuel i c = Some res -> R).
    { induction fuel as [|f IHf]; intros i' c0 Hc0 H'.
      - exact (Hk _ _ Hc0 H').
      - destruct (rmatch r1 s i' c0 _) eqn:E.
        + injection H' as <-.
          refine (IH HG s i' c0 _ _ R Hc0 _ E).
          intros j c' Hc' Hj. destruct (Nat.leb j i'); [discriminate|].
          exact (IHf j c' Hc' Hj).
        + exact (Hk _ _ Hc0 H'). }
    exact (Hstar (S (length s - i)) i c Hc H).
  - destruct (isBoundary s i); [exact (Hk _ _ Hc H)|discriminate].
  - destruct (Nat.eqb_spec m n) as [->|Hne].
    + destruct (rmatch_only P r1 HG _ _ _ _ _ H) as (j & Hs & Hj).
      apply (Hk j ((n, (i, j)) :: c)); [|exact Hj].
      intros a b [Heq|Hin]; [injection Heq as -> ->; exact Hs|exact (Hc a b Hin)].
    + refine (IH HG s i c _ res R Hc _ H).
      intros j c' Hc' H'. apply (Hk j ((m, (i, j)) :: c')); [|exact H'].
      intros a b [Heq|Hin]; [injection Heq; intros; congruence|exact (Hc' a b Hin)].
Qed.

Lemma exec_from_inv fuel r s i m :
  exec_from fuel r s i = Some m ->
  exists i' j c, m = (i', j, c) /\ rmatch r s i' [] (fun j c => Some (j, c)) = Some (j, c).
Proof.
  revert i. induction fuel as [|f IH]; simpl; intros i H; [discriminate|].
  destruct (rmatch r s i [] _) as [[j c]|] eqn:E.
  - injection H as <-. eauto.
  - destruct (Nat.ltb i (length s)); [exact (IH _ H)|discriminate].
Qed.

Lemma exec_inv r s st m :
  exec r s st = Some m ->
  exists i' j c, m = (i', j, c) /\ rmatch r s i' [] (fun j c => Some (j, c)) = Some (j, c).
Proof.
  unfold exec. destruct (Nat.ltb (length s) st); [discriminate|]. apply exec_from_inv.
Qed.

Lemma matchAll_inv r s m :
  In m (matchAll r s) ->
  exists i' j c, m = (i', j, c) /\ rmatch r s i' [] (fun j c => Some (j, c)) = Some (j, c).
Proof.
  unfold matchAll. generalize (S (S (length s))) as fuel. generalize O as li.
  intros li fuel. revert li. induction fuel as [|f IH]; simpl; intros li H; [contradiction|].
  destruct (exec r s li) as [[[i j] c]|] eqn:E; [|contradiction].
  destruct H as [<-|H]; [exact (exec_inv _ _ _ _ E)|exact (IH _ H)].
Qed.

Lemma firstn_skipn_nth (x : Z) (s : jsstr) a n :
  In x (firstn n (skipn a s)) -> exists t, (a <= t < a + n)%nat /\ nth_error s t = Some x.
Proof.
  revert a n. induction s as [|y s IH]; intros a n H.
  - rewrite skipn_nil, firstn_nil in H. contradiction.
  - destruct a as [|a].
    + destruct n as [|n]; [contradiction|]. simpl in H. destruct H as [<-|H].
      * exists O. split; [lia|reflexivity].
      * destruct (IH O n) as (t & Ht & Hn); [rewrite skipn_O; exact H|].
        exists (S t). split; [lia|exact Hn].
    + simpl in H. destruct (IH a n H) as (t & Ht & Hn). exists (S t). split; [lia|exact Hn].
Qed.

Lemma slice_span P s a b :
  span_ok P s a b -> Forall (fun x => P x = true) (slice s (Z.of_nat a) (Z.of_nat b)).
Proof.
  intros [Hab Hs]. unfold slice. apply List.Forall_forall. intros x Hx.
  rewrite Nat2Z.id in Hx. replace (Z.to_nat (Z.of_nat b - Z.of_nat a)) with (b - a)%nat in Hx by lia.
  destruct (firstn_skipn_nth _ _ _ _ Hx) as (t & Ht & Hn).
  destruct (Hs t) as (y & Hy & Hp); [lia|]. congruence.
Qed.

Lemma group_chars n P r s m t :
  grp_ok n P r -> (n <> O) -> In m (matchAll r s) -> group s m n = Some t ->
  Forall (fun x => P x = true) t.
Proof.
  intros HG Hn Hm Hg. destruct (matchAll_inv _ _ _ Hm) as (i & j & c & -> & E).
  assert (Hc : caps_ok n P s c).
  { refine (rmatch_caps n P r HG s i [] _ (j, c) _ (fun a b H => match H with end) _ E).
    intros j' c' Hc' H. injection H as -> ->. exact Hc'. }
  unfold group in Hg. destruct n as [|n']; [congruence|].
  destruct (List.find _ c) as [[n0 [a b]]|] eqn:F; [|discriminate].
  injection Hg as <-. apply find_some in F as [Fin Feq]. simpl in Feq.
  apply Nat.eqb_eq in Feq. subst n0. apply slice_span. exact (Hc a b Fin).
Qed.

Lemma fold_left_inv {A B} (Q : B -> Prop) (step : B -> A -> B) (ms : list A) (acc : B) :
  Q acc -> (forall acc m, In m ms -> Q acc -> Q (step acc m)) -> Q (fold_left step ms acc).
Proof.
  revert acc. induction ms as [|m ms IH]; simpl; intros acc H0 Hs; [exact H0|].
  apply IH; [apply Hs; auto|]. intros; apply Hs; auto.
Qed.

Lemma Forall_set_add (Q : jsstr -> Prop) x l :
  Q x -> Forall Q l -> Forall Q (set_add x l).
Proof.
  intros Hx Hl. unfold set_add. destruct (str_mem x l); [exact Hl|].
  apply Forall_app; split; [exact Hl|constructor; [exact Hx|constructor]].
Qed.

Lemma isSpace_false_of x :
  (ci isPathChar x = true \/ x = 92 \/ x = 47) -> isSpace x = false.
Proof.
  unfold ci, isPathChar, isLowerAlnum, isDigit, lowerUnit, isSpace. simpl.
  intros H. apply not_true_iff_false. intros Hs.
  repeat rewrite orb_true_iff in Hs. repeat rewrite andb_true_iff in Hs.
  rewrite ?Z.eqb_eq, ?Z.leb_le in Hs.
  destruct ((65 <=? x) && (x <=? 90)) eqn:E1;
  [|destruct ((192 <=? x) && (x <=? 222) && negb (x =? 215)) eqn:E2];
  repeat rewrite andb_true_iff in *; repeat rewrite andb_false_iff in *;
  repeat rewrite orb_true_iff in H; repeat rewrite andb_true_iff in H;
  rewrite ?negb_true_iff, ?negb_false_iff, ?Z.eqb_eq, ?Z.eqb_neq, ?Z.leb_le, ?Z.leb_gt in *;
  lia.
Qed.

Lemma re_path_grp : grp_ok 1 (fun x => negb (isSpace x)) re_path.
Proof.
  simpl. repeat split; intros x Hx; rewrite isSpace_false_of; auto.
  right. apply orb_true_iff in Hx. rewrite !Z.eqb_eq in Hx. tauto.
Qed.

Lemma re_phrase_grp : grp_ok 2 (fun x => negb (isSpace x)) re_phrase.
Proof.
  simpl. repeat split; try (intros x Hx; rewrite isSpace_false_of; auto).
Qed.

Lemma normalizePathToken_ok t :
  Forall (fun x => nonspace x = true) t ->
  Forall (fun x => nonspace x = true) (normalizePathToken t) /\
  last (normalizePathToken t) = Some 47.
Proof.
  intros Ht. unfold normalizePathToken.
  assert (Hm : Forall (fun x => nonspace x = true) (map (fun c => if c =? 92 then 47 else c) t)).
  { apply Forall_map. eapply Forall_impl; [exact Ht|]. intros x Hx.
    destruct (x =? 92); [reflexivity|exact Hx]. }
  destruct (last _) as [c|] eqn:E.
  - destruct (Z.eqb_spec c 47) as [->|].
    + split; [exact Hm|exact E].
    + split; [apply Forall_app; split; [exact Hm|repeat constructor]|apply last_snoc].
  - split; [apply Forall_app; split; [exact Hm|repeat constructor]|apply last_snoc].
Qed.

Lemma group_nonspace n r s m :
  grp_ok n (fun x => negb (isSpace x)) r -> n <> O -> In m (matchAll r s) ->
  Forall (fun x => nonspace x = true) (default [] (group s m n)).
Proof.
  intros HG Hn Hm. destruct (group s m n) as [t|] eqn:E; simpl; [|constructor].
  exact (group_chars _ _ _ _ _ _ HG Hn Hm E).
Qed.

Lemma intent_pathIncludes_ok c :
  Forall (fun p => Forall (fun x => nonspace x = true) p /\ last p = Some 47)
         (ri_pathIncludes (extractIntent c)).
Proof.
  cbn [ri_pathIncludes extractIntent].
  apply fold_left_inv.
  - apply fold_left_inv; [constructor|].
    intros acc m Hm Hacc. destruct (negb _); [|exact Hacc].
    apply Forall_set_add; [|exact Hacc].
    apply normalizePathToken_ok. apply (group_nonspace 1 re_path); [apply re_path_grp|discriminate|exact Hm].
  - intros acc m Hm Hacc. destruct (negb _); [|exact Hacc].
    apply Forall_set_add; [|exact Hacc].
    apply normalizePathToken_ok. apply (group_nonspace 2 re_phrase); [apply re_phrase_grp|discriminate|exact Hm].
Qed.

Lemma skipn_nth_error (s : jsstr) i x :
  nth_error s i = Some x -> skipn i s = x :: skipn (S i) s.
Proof.
  revert i. induction s as [|y s IH]; intros [|i] H; simpl in *; try discriminate.
  - injection H as ->. reflexivity.
  - apply IH. exact H.
Qed.

Lemma extension_match_dot s m :
  In m (matchAll re_extension s) -> startsWith (default [] (group s m 0)) (u ".") = true.
Proof.
  intros Hm. destruct (matchAll_inv _ _ _ Hm) as (i & j & c & -> & E).
  unfold re_extension, seqs, chr in E. cbn [rmatch] in E.
  destruct (nth_error s i) as [x|] eqn:Ex; [|discriminate].
  destruct (Z.eqb_spec 46 x) as [<-|]; [|discriminate].
  assert (HO : only (fun _ => true) (rep1to 6 (RChar isLowerAlnum))).
  { simpl. repeat split; auto. }
  destruct (rmatch_only _ _ HO _ _ _ _ _ E) as (j' & [Hle _] & Hk).
  destruct (isBoundary s j'); [|discriminate]. injection Hk as Hj Hc; subst. simpl. unfold slice.
  rewrite Nat2Z.id, (skipn_nth_error _ _ _ Ex).
  replace (Z.to_nat (Z.of_nat j - Z.of_nat i)) with (S (j - S i)) by lia.
  simpl. destruct (take _ _); reflexivity.
Qed.

Lemma language_extensions_dot :
  Forall (fun p => Forall (fun e => startsWith e (u ".") = true) (snd p)) LANGUAGE_EXTENSIONS.
Proof. vm_compute. repeat constructor. Qed.

Lemma intent_extensions_dot c :
  Forall (fun e => startsWith e (u ".") = true) (ri_extensions (extractIntent c)).
Proof.
  cbn [ri_extensions extractIntent].
  match goal with |- Forall _ (match ?x with _ => _ end) =>
    assert (HL : Forall (fun e => startsWith e (u ".") = true) x); [|destruct x; [|exact HL]] end.
  - apply fold_left_inv; [constructor|]. intros acc m Hm Hacc.
    apply Forall_set_add; [|exact Hacc]. exact (extension_match_dot _ _ Hm).
  - apply fold_left_inv; [constructor|]. intros acc km _ Hacc.
    destruct (test _ _); [|exact Hacc].
    destruct (List.find _ _) as [[k exts]|] eqn:F; [|exact Hacc].
    apply find_some in F as [Fin _].
    pose proof (proj1 (List.Forall_forall _ _) language_extensions_dot _ Fin) as Hex. simpl in Hex.
    apply fold_left_inv; [exact Hacc|]. intros a e He Ha.
    apply Forall_set_add; [|exact Ha]. exact (proj1 (List.Forall_forall _ _) Hex e He).
Qed.

Lemma dropWhile_nonspace t :
  Forall (fun x => nonspace x = true) t -> dropWhile isSpace t = t.
Proof.
  intros H. destruct t as [|x t]; [reflexivity|]. inversion H as [|? ? Hx]; subst.
  unfold nonspace in Hx. apply negb_true_iff in Hx. simpl. rewrite Hx. reflexivity.
Qed.

Lemma trim_nonspace t : Forall (fun x => nonspace x = true) t -> trim t = t.
Proof.
  intros H. unfold trim. rewrite (dropWhile_nonspace t H).
  rewrite dropWhile_nonspace; [apply rev_involutive|]. apply Forall_rev. exact H.
Qed.

Lemma jsstr_eqb_spec a b : jsstr_eqb a b = true <-> a = b.
Proof. unfold jsstr_eqb. case_decide; split; congruence. Qed.

Lemma jsstr_eqb_refl a : jsstr_eqb a a = true.
Proof. apply jsstr_eqb_spec. reflexivity. Qed.

Lemma In_set_add x y l : In x (set_add y l) <-> x = y \/ In x l.
Proof.
  unfold set_add. destruct (str_mem y l) eqn:E.
  - unfold str_mem in E. apply existsb_exists in E as (z & Hz & Hyz).
    apply jsstr_eqb_spec in Hyz. subst z. simpl. split; [tauto|]. intros [->|H]; auto.
  - rewrite in_app_iff. simpl. intuition congruence.
Qed.

Lemma In_fold_set_add x l acc :
  In x (fold_left (fun acc v => set_add v acc) l acc) <-> In x l \/ In x acc.
Proof.
  revert acc. induction l as [|y l IH]; simpl; intros acc; [tauto|].
  rewrite IH, In_set_add. intuition congruence.
Qed.

Lemma startsWith_refl s : startsWith s s = true.
Proof. induction s as [|x s IH]; simpl; [reflexivity|]. rewrite Z.eqb_refl. exact IH. Qed.

Lemma includes_refl s : includes s s = true.
Proof. destruct s; simpl; [reflexivity|]. rewrite Z.eqb_refl, startsWith_refl. reflexivity. Qed.

Lemma filter_negb_nil {A} (f : A -> bool) l :
  (forall x, In x l -> f x = true) -> List.filter (fun x => negb (f x)) l = [].
Proof.
  induction l as [|x l IH]; simpl; intros H; [reflexivity|].
  rewrite (H x (or_introl eq_refl)). simpl. apply IH. auto.
Qed.

Lemma filter_all {A} (f : A -> bool) l :
  (forall x, In x l -> f x = true) -> List.filter f l = l.
Proof.
  induction l as [|x l IH]; simpl; intros H; [reflexivity|].
  rewrite (H x (or_introl eq_refl)), IH; auto.
Qed.

Lemma ev_mem_In e l : In e l -> ev_mem e l = true.
Proof.
  intros H. apply existsb_exists. exists e. split; [exact H|]. destruct e; reflexivity.
Qed.

(** The fields of the aligned rule that the intent determines. *)
Lemma align_fields c r :
  let intent := extractIntent c in
  let a := alignRuleToIntent c r in
  (isSome (ri_count intent) && isSome (ri_windowSeconds intent) = true ->
   cr_type a = RTThreshold /\ cr_count a = ri_count intent /\
   cr_windowSeconds a = ri_windowSeconds intent) /\
  (isSome (ri_count intent) && isSome (ri_windowSeconds intent) = false ->
   cr_type a = RTPattern \/ (cr_type a = cr_type r /\ cr_type r = RTPattern)) /\
  (ri_eventTypes intent <> [] -> eventTypes (cr_match a) = Some (ri_eventTypes intent)) /\
  (ri_extensions intent <> [] -> extensions (cr_match a) = Some (ri_extensions intent)) /\
  (ri_extensions intent = [] ->
   isSome (nonEmpty (extensions (cr_match a))) = false /\
   (extensions (cr_match a) = None \/ extensions (cr_match a) = Some [])) /\
  (ri_pathIncludes intent <> [] ->
   pathIncludes (cr_match a) =
   Some (fold_left (fun acc v => set_add v acc)
           (List.filter (fun v => negb (Nat.eqb (length v) 0)) (map trim (ri_pathIncludes intent)))
           [])) /\
  (ri_pathIncludes intent = [] -> isSome (nonEmpty (pathIncludes (cr_match a))) = false).
Proof.
  cbv zeta. unfold alignRuleToIntent.
  destruct (extractIntent c) as [ets exts pis cnt win]. cbn [ri_eventTypes ri_extensions ri_pathIncludes ri_count ri_windowSeconds].
  destruct r as [ty [pi pe ex et] w n]. cbn [cr_match cr_type cr_count cr_windowSeconds pathIncludes pathExcludes extensions eventTypes].
  destruct (isSome cnt && isSome win) eqn:Hreq;
  [|destruct (RuleType_eqb ty RTThreshold) eqn:Hty];
  cbn [cr_match cr_type cr_count cr_windowSeconds pathIncludes pathExcludes extensions eventTypes];
  (repeat split); intros; try discriminate; try reflexivity;
  try (left; reflexivity);
  try (right; split; [reflexivity|destruct ty; [reflexivity|discriminate]]);
  try (destruct ets; [congruence|reflexivity]);
  try (destruct exts; [congruence|reflexivity]);
  try (destruct pis; [congruence|reflexivity]);
  subst; try (now destruct ex as [[|x xs]|]; simpl; auto);
  try (now destruct pi as [[|x xs]|]; simpl; auto).
Qed.

Lemma aligned_paths_eq pis :
  Forall (fun p => Forall (fun x => nonspace x = true) p /\ last p = Some 47) pis ->
  List.filter (fun v => negb (Nat.eqb (length v) 0)) (map trim pis) = pis.
Proof.
  intros H. rewrite (map_ext_in trim id).
  - rewrite map_id. apply filter_all. intros p Hp.
    destruct (proj1 (List.Forall_forall _ _) H p Hp) as [_ Hl].
    destruct p; [discriminate|reflexivity].
  - intros p Hp. apply trim_nonspace. exact (proj1 (proj1 (List.Forall_forall _ _) H p Hp)).
Qed.

Ltac no_extra_filter :=
  match goal with |- context [List.filter ?g ?l] =>
    let H := fresh in
    assert (H : List.filter g l = []);
    [apply filter_negb_nil; intros x Hx; apply existsb_exists; exists x; split;
     [first [exact Hx | apply In_fold_set_add; left; exact Hx
            | apply In_fold_set_add in Hx as [Hx|[]]; exact Hx]
     |first [apply jsstr_eqb_refl | apply includes_refl]]
    |rewrite H; clear H] end.

Lemma aligned_intent_errors_nil_aux c r :
  vr_errors (validateCompiledRuleWithIntent (alignRuleToIntent c r) c) =
  vr_errors (validateCompiledRule (alignRuleToIntent c r)).
Proof.
  pose proof (align_fields c r) as (HT & _ & HE & HX & _ & HP & _). cbv zeta in *.
  pose proof (intent_pathIncludes_ok c) as Hok.
  set (a := alignRuleToIntent c r) in *. clearbody a.
  unfold validateCompiledRuleWithIntent. cbn [vr_errors].
  rewrite <- (app_nil_r (vr_errors (validateCompiledRule a))) at 2. f_equal.
  destruct (extractIntent c) as [ets exts pis cnt win].
  cbn [ri_eventTypes ri_extensions ri_pathIncludes ri_count ri_windowSeconds] in *.
  assert (Hthr : forall (e1 e2 e3 : list ValidationError),
    (if isSome cnt && isSome win && negb (RuleType_eqb (cr_type a) RTThreshold)
     then e1 else []) ++
    (if isSome cnt && isSome win && RuleType_eqb (cr_type a) RTThreshold
     then (if optZ_neqb (cr_count a) cnt then e2 else []) ++
          (if optZ_neqb (cr_windowSeconds a) win then e3 else [])
     else []) = []).
  { intros e1 e2 e3. destruct (isSome cnt && isSome win) eqn:Hreq; [|reflexivity].
    destruct (HT eq_refl) as (-> & -> & ->). simpl.
    destruct cnt as [n|], win as [w|]; try discriminate. simpl. rewrite !Z.eqb_refl. reflexivity. }
  rewrite app_assoc, Hthr, app_nil_l.
  destruct ets as [|e ets]; [|rewrite HE by discriminate; cbn [opt_list];
    assert (Hev : List.filter (fun e1 => negb (ev_mem e1 (e :: ets))) (e :: ets) = [])
      by (apply filter_negb_nil; intros x Hx; apply ev_mem_In; exact Hx);
    rewrite Hev];
  (destruct exts as [|x0 exts]; [|rewrite HX by discriminate; cbn [opt_list]]);
  (destruct pis as [|p0 pis]; [|rewrite HP by discriminate; rewrite (aligned_paths_eq _ Hok); cbn [opt_list]]);
  repeat no_extra_filter; reflexivity.
Qed.

(** X1: once [compile] has aligned the model's rule to the intent of the
    condition, the intent cross-check of [validateCompiledRuleWithIntent]
    adds no error to those of [validateCompiledRule]. *)
Theorem aligned_intent_errors_nil c r :
  vr_errors (validateCompiledRuleWithIntent (alignRuleToIntent c r) c) =
  vr_errors (validateCompiledRule (alignRuleToIntent c r)).
Proof. exact (aligned_intent_errors_nil_aux c r). Qed.





Lemma skipn_snoc {A} k (l : list A) m :
  (k <= length l)%nat -> skipn k l ++ [m] = skipn k (l ++ [m]).
Proof.
  intros H. rewrite skipn_app. replace (k - length l)%nat with O by lia. reflexivity.
Qed.

Lemma tl_skipn {A} k (l : list A) : tl (skipn k l) = skipn (S k) l.
Proof.
  revert l. induction k as [|k IH]; intros [|x l]; try reflexivity.
  - cbn [skipn]. rewrite IH. reflexivity.
Qed.

(** X6: while the buffer holds at most [limit] matches, recording a
    sequence of matches one by one leaves exactly the last [limit] of the
    old buffer followed by the new matches. *)
Lemma pushRecent_fold (limit : Z) ms recent :
  (Z.of_nat (length recent) <= limit) ->
  fold_left (fun r m => pushRecent limit m r) ms recent =
  skipn (length (recent ++ ms) - Z.to_nat limit) (recent ++ ms).
Proof.
  intros H0. induction ms as [|m ms IH] using rev_ind.
  - rewrite app_nil_r. replace (length recent - Z.to_nat limit)%nat with O by lia. reflexivity.
  - rewrite fold_left_app, IH. cbn [fold_left]. unfold pushRecent.
    rewrite app_assoc. set (l := recent ++ ms).
    assert (Hl : (length recent <= length l)%nat) by (unfold l; rewrite length_app; lia).
    rewrite skipn_snoc by lia.
    rewrite length_skipn, !length_app. cbn [length].
    destruct (Z.ltb_spec limit (Z.of_nat (length l + 1 - (length l - Z.to_nat limit)))).
    + rewrite tl_skipn. f_equal. lia.
    + f_equal. lia.
Qed.

Lemma totalMatches_acc rules a :
  fold_left (fun sum r => sum + r_matchCount r) rules a = a + totalMatches rules.
Proof.
  unfold totalMatches. revert a. induction rules as [|r rs IH]; intros a; simpl; [lia|].
  rewrite (IH (a + _)), (IH (0 + _)). lia.
Qed.

Lemma totalMatches_cons r rs : totalMatches (r :: rs) = r_matchCount r + totalMatches rs.
Proof. unfold totalMatches at 1. simpl. rewrite totalMatches_acc. lia. Qed.

Lemma update_first_bump id now rules :
  match update_first id (bump now) rules with
  | Some (rules', _) => map r_id rules' = map r_id rules /\
                        totalMatches rules' = totalMatches rules + 1
  | None => ~ In id (map r_id rules)
  end.
Proof.
  induction rules as [|r rs IH]; simpl; [tauto|].
  destruct (jsstr_eqb (r_id r) id) eqn:E.
  - simpl. split; [reflexivity|]. rewrite !totalMatches_cons. simpl. lia.
  - destruct (update_first id (bump now) rs) as [[rs' b]|].
    + destruct IH as [IH1 IH2]. simpl. rewrite IH1. split; [reflexivity|].
      rewrite !totalMatches_cons. lia.
    + intros [H|H]; [|contradiction]. subst. rewrite jsstr_eqb_refl in E. discriminate.
Qed.

Lemma recordMatchStore_ids id now rules :
  map r_id (recordMatchStore id now rules) = map r_id rules.
Proof.
  pose proof (update_first_bump id now rules) as H. unfold recordMatchStore.
  change (fun r => _) with (bump now).
  destruct (update_first id (bump now) rules) as [[rs b]|]; [exact (proj1 H)|reflexivity].
Qed.

Lemma recordMatchStore_total id now rules :
  In id (map r_id rules) ->
  totalMatches (recordMatchStore id now rules) = totalMatches rules + 1.
Proof.
  pose proof (update_first_bump id now rules) as H. unfold recordMatchStore.
  change (fun r => _) with (bump now).
  destruct (update_first id (bump now) rules) as [[rs b]|]; [intros; exact (proj2 H)|contradiction].
Qed.

Lemma evaluateRule_ruleId event rule now tw m tw' :
  evaluateRule event rule now tw = (Some m, tw') -> m_ruleId m = r_id rule.
Proof.
  unfold evaluateRule. destruct (negb _); [discriminate|].
  destruct (r_kind rule) as [|w n].
  - intros [= <- _]. reflexivity.
  - destruct (threshold_step _ _ _ _) as [[fire filtered] stored].
    destruct fire; [intros [= <- _]; reflexivity|discriminate].
Qed.

Lemma evaluateRules_acc clock event i rules st :
  let '(ms, st') := evaluateRules clock event i rules st in
  eventsObserved (stats st') = eventsObserved (stats st) /\
  rulesEvaluated (stats st') = rulesEvaluated (stats st) /\
  matches (stats st') = matches (stats st) + Z.of_nat (length ms) /\
  recentMatchLimit st' = recentMatchLimit st /\
  recentMatches st' =
    fold_left (fun r m => pushRecent (recentMatchLimit st) m r) ms (recentMatches st) /\
  map r_id (storeRules st') = map r_id (storeRules st) /\
  ((forall r, In r rules -> In (r_id r) (map r_id (storeRules st))) ->
   totalMatches (storeRules st') = totalMatches (storeRules st) + Z.of_nat (length ms)) /\
  sublist (map m_ruleId ms) (map r_id rules).
Proof.
  revert i st. induction rules as [|rule rest IH]; intros i st.
  - simpl. repeat split; try lia; constructor.
  - cbn [evaluateRules].
    destruct (evaluateRule event rule (clock i) (thresholdWindows st)) as [[mt|] tw] eqn:Ev.
    + specialize (IH (S i) (mkEngine (mkStats (eventsObserved (stats st)) (rulesEvaluated (stats st))
                      (matches (stats st) + 1))
                      (pushRecent (recentMatchLimit st) mt (recentMatches st))
                      (recentMatchLimit st) tw
                      (recordMatchStore (r_id rule) (clock i) (storeRules st)))).
      destruct (evaluateRules clock event (S i) rest _) as [ms st'].
      cbn [stats eventsObserved rulesEvaluated matches recentMatchLimit recentMatches storeRules] in IH.
      destruct IH as (H1 & H2 & H3 & H4 & H5 & H6 & H7 & H8).
      rewrite recordMatchStore_ids in H6, H7.
      repeat split; try assumption.
      * rewrite H3. simpl length. lia.
      * intros Hin. rewrite H7 by (intros r Hr; apply Hin; right; exact Hr).
        rewrite recordMatchStore_total by (apply (Hin rule); left; reflexivity).
        simpl length. lia.
      * simpl. rewrite (evaluateRule_ruleId _ _ _ _ _ _ Ev). apply sublist_skip. exact H8.
    + specialize (IH (S i) (mkEngine (stats st) (recentMatches st) (recentMatchLimit st) tw (storeRules st))).
      destruct (evaluateRules clock event (S i) rest _) as [ms st'].
      cbn [stats recentMatchLimit recentMatches storeRules] in IH.
      destruct IH as (H1 & H2 & H3 & H4 & H5 & H6 & H7 & H8).
      repeat split; try assumption.
      * intros Hin. apply H7. intros r Hr. apply Hin. right. exact Hr.
      * simpl. apply sublist_cons. exact H8.
Qed.

(** X7: when the event's path is accepted, [evaluateEvent] adds one
    observed event, adds the number of enabled rules to [rulesEvaluated] and
    the number of returned matches to [matches] and to the store's total
    match count, records the matches in the ring buffer in order, keeps the
    store's rule ids, and returns at most one match per enabled rule, in the
    order of the enabled rules. *)
Theorem evaluateEvent_accepted_accounting validateFilePath resolve watchDir clock event st :
  validateFilePath (resolve watchDir (ev_path event)) = true ->
  let enabled := List.filter r_enabled (storeRules st) in
  let '(ms, st') := evaluateEvent validateFilePath resolve watchDir clock event st in
  eventsObserved (stats st') = eventsObserved (stats st) + 1 /\
  rulesEvaluated (stats st') = rulesEvaluated (stats st) + Z.of_nat (length enabled) /\
  matches (stats st') = matches (stats st) + Z.of_nat (length ms) /\
  recentMatches st' =
    fold_left (fun r m => pushRecent (recentMatchLimit st) m r) ms (recentMatches st) /\
  map r_id (storeRules st') = map r_id (storeRules st) /\
  totalMatches (storeRules st') = totalMatches (storeRules st) + Z.of_nat (length ms) /\
  sublist (map m_ruleId ms) (map r_id enabled).
Proof.
  intros Hv enabled. unfold evaluateEvent. rewrite Hv. cbn [negb].
  match goal with |- context [evaluateRules clock event 0 ?rs ?s] =>
    pose proof (evaluateRules_acc clock event 0%nat rs s) as H end.
  destruct (evaluateRules _ _ _ _ _) as [ms st'].
  cbn [stats eventsObserved rulesEvaluated matches recentMatchLimit recentMatches storeRules] in H.
  destruct H as (H1 & H2 & H3 & H4 & H5 & H6 & H7 & H8).
  repeat split; try assumption.
  apply H7. intros r Hr. apply List.filter_In in Hr. apply in_map. tauto.
Qed.

Lemma filter_negb_nil_inv {A} (f : A -> bool) l :
  List.filter (fun x => negb (f x)) l = [] -> forall x, In x l -> f x = true.
Proof.
  induction l as [|y l IH]; simpl; intros H x Hx; [contradiction|].
  destruct (f y) eqn:Ey; simpl in H; [|discriminate].
  destruct Hx as [<-|Hx]; [exact Ey|exact (IH H x Hx)].
Qed.

Lemma optZ_neqb_false a b : optZ_neqb a b = false -> a = b.
Proof.
  destruct a as [x|], b as [y|]; simpl; try discriminate; [|reflexivity].
  intros H. apply negb_false_iff, Z.eqb_eq in H. subst. reflexivity.
Qed.

Lemma vr_valid_base rule :
  vr_valid (validateCompiledRule rule) = Nat.eqb (length (vr_errors (validateCompiledRule rule))) 0.
Proof. reflexivity. Qed.

Lemma app_nil_split {A} (l1 l2 : list A) : l1 ++ l2 = [] -> l1 = [] /\ l2 = [].
Proof. apply app_eq_nil. Qed.

(** X4: a compiled rule accepted by [validateCompiledRuleWithIntent] passes
    [validateCompiledRule]; it is a threshold rule with the intent's count
    and window when the condition states both; its event types are
    non-empty and among the intent's when the intent has some; its
    extensions equal the intent's up to case; and each intent path is
    contained in some compiled path and each compiled path contains some
    intent path (up to case). *)
Theorem validateCompiledRuleWithIntent_valid rule c :
  let intent := extractIntent c in
  vr_valid (validateCompiledRuleWithIntent rule c) = true ->
  vr_valid (validateCompiledRule rule) = true /\
  (ri_count intent <> None -> ri_windowSeconds intent <> None ->
   cr_type rule = RTThreshold /\ cr_count rule = ri_count intent /\
   cr_windowSeconds rule = ri_windowSeconds intent) /\
  (ri_eventTypes intent <> [] ->
   opt_list (eventTypes (cr_match rule)) <> [] /\
   forall e, In e (opt_list (eventTypes (cr_match rule))) -> In e (ri_eventTypes intent)) /\
  (ri_extensions intent <> [] ->
   (forall ext, In ext (ri_extensions intent) ->
      exists v, In v (opt_list (extensions (cr_match rule))) /\ toLowerCase v = toLowerCase ext) /\
   (forall v, In v (opt_list (extensions (cr_match rule))) ->
      exists ext, In ext (ri_extensions intent) /\ toLowerCase ext = toLowerCase v)) /\
  (ri_pathIncludes intent <> [] ->
   (forall inc, In inc (ri_pathIncludes intent) ->
      exists p, In p (opt_list (pathIncludes (cr_match rule))) /\
                includes (toLowerCase p) (toLowerCase inc) = true) /\
   (forall p, In p (opt_list (pathIncludes (cr_match rule))) ->
      exists inc, In inc (ri_pathIncludes intent) /\
                  includes (toLowerCase p) (toLowerCase inc) = true)).
Proof.
  intros intent. unfold validateCompiledRuleWithIntent. cbn [vr_valid].
  fold intent. rewrite Nat.eqb_eq, length_zero_iff_nil. intros H.
  apply app_nil_split in H as [Hb H]. apply app_nil_split in H as [Hty H].
  apply app_nil_split in H as [Hthr H]. apply app_nil_split in H as [Hev H].
  apply app_nil_split in H as [Hext Hpath].
  split; [rewrite vr_valid_base, Hb; reflexivity|].
  split; [|split; [|split]].
  - intros Hc Hw. destruct (ri_count intent) as [n|]; [|congruence].
    destruct (ri_windowSeconds intent) as [w|]; [|congruence]. cbn [isSome andb] in Hty, Hthr.
    destruct (cr_type rule) eqn:Et; cbn [RuleType_eqb negb] in Hty, Hthr; [discriminate|].
    apply app_nil_split in Hthr as [H1 H2].
    destruct (optZ_neqb (cr_count rule) (Some n)) eqn:E1; [discriminate|].
    destruct (optZ_neqb (cr_windowSeconds rule) (Some w)) eqn:E2; [discriminate|].
    split; [reflexivity|split; apply optZ_neqb_false; assumption].
  - intros Hne. destruct (ri_eventTypes intent) as [|e0 its]; [congruence|].
    destruct (opt_list (eventTypes (cr_match rule))) as [|e1 ets]; [discriminate|].
    split; [discriminate|].
    destruct (List.filter _ (e1 :: ets)) eqn:Ef; [|discriminate].
    intros e He. apply (existsb_EventType_In e (e0 :: its)).
    exact (filter_negb_nil_inv (fun e => ev_mem e (e0 :: its)) _ Ef e He).
  - intros Hne. destruct (ri_extensions intent) as [|x0 iexts]; [congruence|].
    apply app_nil_split in Hext as [Hm Hx].
    destruct (List.filter _ (x0 :: iexts)) eqn:Em; [|discriminate].
    destruct (List.filter _ (opt_list (extensions (cr_match rule)))) eqn:Ex; [|discriminate].
    split.
    + intros ext Hin. pose proof (filter_negb_nil_inv _ _ Em ext Hin) as Hx1.
      apply existsb_exists in Hx1 as (v & Hv & Heq). apply jsstr_eqb_spec in Heq. eauto.
    + intros v Hin. pose proof (filter_negb_nil_inv _ _ Ex v Hin) as Hx1.
      apply existsb_exists in Hx1 as (ext & He & Heq). apply jsstr_eqb_spec in Heq. eauto.
  - intros Hne. destruct (ri_pathIncludes intent) as [|p0 incs]; [congruence|].
    apply app_nil_split in Hpath as [Hm Hx].
    destruct (List.filter _ (p0 :: incs)) eqn:Em; [|discriminate].
    destruct (List.filter _ (opt_list (pathIncludes (cr_match rule)))) eqn:Ex; [|discriminate].
    split.
    + intros inc Hin. pose proof (filter_negb_nil_inv _ _ Em inc Hin) as Hx1.
      apply existsb_exists in Hx1 as (p & Hp & Heq). eauto.
    + intros p Hin. pose proof (filter_negb_nil_inv _ _ Ex p Hin) as Hx1.
      apply existsb_exists in Hx1 as (inc & Hi & Heq). eauto.
Qed.

Lemma find_app_none {A} (f : A -> bool) l1 l2 :
  (forall x, In x l1 -> f x = false) -> List.find f (l1 ++ l2) = List.find f l2.
Proof.
  induction l1 as [|x l1 IH]; simpl; intros H; [reflexivity|].
  rewrite (H x (or_introl eq_refl)). apply IH. auto.
Qed.

Lemma find_app_some {A} (f : A -> bool) l1 l2 x :
  List.find f l1 = Some x -> List.find f (l1 ++ l2) = Some x.
Proof.
  induction l1 as [|y l1 IH]; simpl; [discriminate|].
  destruct (f y); [tauto|exact IH].
Qed.

Lemma id_absent id rules :
  ~ In id (map r_id rules) -> forall r, In r rules -> jsstr_eqb (r_id r) id = false.
Proof.
  intros H r Hr. destruct (jsstr_eqb (r_id r) id) eqn:E; [|reflexivity].
  apply jsstr_eqb_spec in E. subst. exfalso. apply H. apply in_map. exact Hr.
Qed.

(** X9: with a fresh id, [getRule] finds the rule [addRule] created: it is
    enabled, unmatched, keeps the submitted condition, and every other id
    is looked up as before. *)
Theorem addRule_getRule id now params rules :
  ~ In id (map r_id rules) ->
  let '(rule, rules') := addRule id now params rules in
  getRule id rules' = Some rule /\
  r_id rule = id /\ r_enabled rule = true /\ r_matchCount rule = 0 /\
  r_lastMatched rule = None /\ r_originalCondition rule = Some (ap_condition params) /\
  forall k, k <> id -> getRule k rules' = getRule k rules.
Proof.
  intros Hfresh. unfold addRule, getRule. cbn [r_id r_enabled r_matchCount r_lastMatched r_originalCondition].
  repeat split.
  - rewrite find_app_none by (apply id_absent; exact Hfresh). simpl. rewrite jsstr_eqb_refl. reflexivity.
  - intros k Hk. destruct (List.find (fun r => jsstr_eqb (r_id r) k) rules) eqn:E.
    + apply find_app_some. exact E.
    + rewrite find_app_none.
      * simpl. destruct (jsstr_eqb id k) eqn:E2; [apply jsstr_eqb_spec in E2; congruence|reflexivity].
      * intros x Hx. destruct (jsstr_eqb (r_id x) k) eqn:E3; [|reflexivity].
        pose proof (List.find_none _ _ E x Hx) as Hn. congruence.
Qed.

Lemma findIndex_spec id rules :
  match findIndex (fun r => jsstr_eqb (r_id r) id) rules with
  | None => ~ In id (map r_id rules)
  | Some index => exists r, nth_error rules index = Some r /\ r_id r = id /\
      forall r', In r' (firstn index rules) -> r_id r' <> id
  end.
Proof.
  induction rules as [|r rs IH]; simpl; [tauto|].
  destruct (jsstr_eqb (r_id r) id) eqn:E.
  - exists r. apply jsstr_eqb_spec in E. repeat split; auto; intros r' [].
  - destruct (findIndex _ rs) as [index|]; simpl.
    + destruct IH as (r0 & Hn & Hid & Hpre). exists r0. repeat split; auto.
      intros r' [<-|Hr']; [|exact (Hpre r' Hr')].
      intros Heq. rewrite Heq, jsstr_eqb_refl in E. discriminate.
    + intros [Heq|Hin]; [|exact (IH Hin)]. rewrite Heq, jsstr_eqb_refl in E. discriminate.
Qed.

(** X10: [deleteRule] removes exactly the first rule with the id and returns
    [true]; when no rule has the id it returns [false] and keeps the list. *)
Theorem deleteRule_spec id rules :
  match deleteRule id rules with
  | (false, rules') => rules' = rules /\ ~ In id (map r_id rules)
  | (true, rules') => exists pre r post,
      rules = pre ++ r :: post /\ rules' = pre ++ post /\ r_id r = id /\
      ~ In id (map r_id pre)
  end.
Proof.
  unfold deleteRule. pose proof (findIndex_spec id rules) as H.
  destruct (findIndex _ rules) as [index|].
  - destruct H as (r & Hn & Hid & Hpre).
    exists (firstn index rules), r, (skipn (S index) rules).
    pose proof (nth_error_split rules index Hn) as (l1 & l2 & Heq & Hlen).
    assert (Hf : firstn index rules = l1) by (subst; rewrite firstn_app, Nat.sub_diag, firstn_all; simpl; apply app_nil_r).
    assert (Hs : skipn (S index) rules = l2).
    { subst rules index. rewrite skipn_app. replace (S (length l1) - length l1)%nat with 1%nat by lia.
      rewrite skipn_all2 by lia. reflexivity. }
    rewrite Hf, Hs. repeat split; auto.
    rewrite <- Hf. intros Hin. apply in_map_iff in Hin as (r' & Hr' & Hin). exact (Hpre r' Hin Hr').
  - split; [reflexivity|exact H].
Qed.

Lemma findIndex_snoc id l x :
  (forall r, In r l -> jsstr_eqb (r_id r) id = false) -> r_id x = id ->
  findIndex (fun r => jsstr_eqb (r_id r) id) (l ++ [x]) = Some (length l).
Proof.
  intros Hl Hx. induction l as [|y l IH]; simpl.
  - rewrite Hx, jsstr_eqb_refl. reflexivity.
  - rewrite (Hl y (or_introl eq_refl)), IH; [reflexivity|]. intros r Hr. apply Hl. right. exact Hr.
Qed.

(** X11: deleting the rule just added under a fresh id succeeds and restores
    the previous rule list. *)
Theorem deleteRule_addRule id now params rules :
  ~ In id (map r_id rules) ->
  deleteRule id (snd (addRule id now params rules)) = (true, rules).
Proof.
  intros Hfresh. unfold deleteRule. cbn [snd addRule].
  rewrite findIndex_snoc by (reflexivity || (apply id_absent; exact Hfresh)).
  rewrite firstn_app, Nat.sub_diag, firstn_all, skipn_app, skipn_all2 by lia.
  replace (S (length rules) - length rules)%nat with 1%nat by lia.
  simpl. rewrite !app_nil_r. reflexivity.
Qed.

Lemma find_snoc_some {A} (f : A -> bool) l x :
  f x = true -> List.find f (l ++ [x]) <> None.
Proof.
  intros Hx. induction l as [|y l IH]; simpl.
  - rewrite Hx. discriminate.
  - destruct (f y); [discriminate|exact IH].
Qed.

(** X12: after [addRule], [findDuplicateRule] with the same condition and
    compiled rule reports a duplicate, provided the condition is not blank
    or the compiled rule carries a window and a count exactly when it is a
    threshold rule. *)
Theorem findDuplicateRule_after_addRule localeCompare id now params rules :
  let compiled := ap_compiled params in
  toLowerCase (trim (ap_condition params)) <> [] \/
  (cr_type compiled = RTThreshold /\ cr_windowSeconds compiled <> None /\ cr_count compiled <> None) \/
  (cr_type compiled = RTPattern /\ cr_windowSeconds compiled = None /\ cr_count compiled = None) ->
  findDuplicateRule localeCompare (ap_condition params) compiled
    (snd (addRule id now params rules)) <> None.
Proof.
  intros compiled H. unfold findDuplicateRule, addRule. cbn [snd].
  apply find_snoc_some. cbn [r_originalCondition].
  destruct H as [Hc|Hsig].
  - destruct (toLowerCase (trim (ap_condition params))) as [|x l]; [congruence|].
    simpl. rewrite jsstr_eqb_refl. reflexivity.
  - match goal with |- (if ?b then true else _) = true => destruct b; [reflexivity|] end.
    apply jsstr_eqb_spec. unfold ruleSignatureFromRule. f_equal. subst compiled.
    destruct (ap_compiled params) as [ty m w c]. cbn [cr_type cr_windowSeconds cr_count cr_match] in *.
    destruct Hsig as [(-> & Hw & Hc)|(-> & -> & ->)]; [|reflexivity].
    destruct w as [w|]; [|congruence]. destruct c as [c|]; [|congruence]. reflexivity.
Qed.

(** X8: [evaluateRule] on a threshold rule touches only that rule's window;
    an event outside the filter changes nothing; otherwise the stored
    window is emptied when the rule fires, and else holds fewer than
    [count] timestamps, each within the window of now and taken from the
    previous window or now. *)
Theorem evaluateRule_window_bound event rule w n now tw :
  r_kind rule = ThresholdRule w n ->
  let '(m, tw') := evaluateRule event rule now tw in
  (forall k, k <> r_id rule -> tw' !! k = tw !! k) /\
  (matchesFilter event (r_match rule) = false -> m = None /\ tw' = tw) /\
  (matchesFilter event (r_match rule) = true ->
   exists stored, tw' = <[r_id rule := stored]> tw /\
   ((m <> None /\ stored = []) \/
    (m = None /\ Z.of_nat (length stored) < n /\
     forall t, In t stored ->
       now - t <= w * 1000 /\ In t (default [] (tw !! r_id rule) ++ [now])))).
Proof.
  intros Hk. unfold evaluateRule.
  destruct (matchesFilter event (r_match rule)) eqn:Hm; cbn [negb].
  - rewrite Hk. unfold threshold_step.
    set (filtered := List.filter _ _).
    destruct (n <=? Z.of_nat (length filtered)) eqn:Hn.
    + split; [intros k Hne; apply lookup_insert_ne; congruence|].
      split; [discriminate|]. intros _. exists []. split; [reflexivity|]. left. split; [discriminate|reflexivity].
    + split; [intros k Hne; apply lookup_insert_ne; congruence|].
      split; [discriminate|]. intros _. exists filtered. split; [reflexivity|]. right.
      split; [reflexivity|]. split; [apply Z.leb_gt in Hn; exact Hn|].
      intros t Ht. apply List.filter_In in Ht as [Hin Ht]. apply Z.leb_le in Ht. tauto.
  - split; [reflexivity|]. split; [tauto|discriminate].
Qed.

Lemma indexOfFrom_spec c s i :
  (indexOfFrom c s i = -1 /\ ~ In c s) \/
  (exists pre post, s = pre ++ c :: post /\ ~ In c pre /\
                    indexOfFrom c s i = i + Z.of_nat (length pre)).
Proof.
  revert i. induction s as [|x s IH]; intros i; simpl; [left; tauto|].
  destruct (Z.eqb_spec x c) as [->|Hne].
  - right. exists [], s. simpl. repeat split; auto. lia.
  - destruct (IH (i + 1)) as [[H1 H2]|(pre & post & H1 & H2 & H3)].
    + left. split; [exact H1|]. intros [H|H]; [congruence|contradiction].
    + right. exists (x :: pre), post. rewrite H1. simpl. repeat split; auto.
      * intros [H|H]; [congruence|contradiction].
      * rewrite <- H1, H3. lia.
Qed.

Lemma indexOf_spec c s :
  (indexOf c s = -1 /\ ~ In c s) \/
  (exists pre post, s = pre ++ c :: post /\ ~ In c pre /\ indexOf c s = Z.of_nat (length pre)).
Proof. exact (indexOfFrom_spec c s 0). Qed.

Lemma lastIndexOf_spec c s :
  (lastIndexOf c s = -1 /\ ~ In c s) \/
  (exists pre post, s = pre ++ c :: post /\ ~ In c post /\
                    lastIndexOf c s = Z.of_nat (length pre)).
Proof.
  unfold lastIndexOf. destruct (indexOf_spec c (rev s)) as [[H1 H2]|(pre & post & H1 & H2 & H3)].
  - left. rewrite H1. split; [reflexivity|]. intros H. apply H2. apply in_rev. rewrite rev_involutive. exact H.
  - right. exists (rev post), (rev pre).
    assert (Hs : s = rev post ++ c :: rev pre).
    { rewrite <- (rev_involutive s), H1, rev_app_distr. simpl. rewrite <- app_assoc. reflexivity. }
    split; [exact Hs|]. split; [rewrite <- in_rev; exact H2|].
    rewrite H3. assert (Hl : length s = (length (rev post) + S (length pre))%nat)
      by (rewrite Hs, length_app; simpl; rewrite !length_rev; reflexivity).
    destruct (Z.eqb_spec (Z.of_nat (length pre)) (-1)); [lia|]. lia.
Qed.

Lemma first_occ_le (c : Z) A B X Y :
  A ++ c :: B = X ++ c :: Y -> ~ In c A -> (length A <= length X)%nat.
Proof.
  revert X. induction A as [|a A IH]; intros X H HA; simpl; [lia|].
  destruct X as [|x X]; simpl in H.
  - injection H as Ha _. subst. exfalso. apply HA. left. reflexivity.
  - injection H as Ha H. apply le_n_S. apply (IH X H). intros Hin. apply HA. right. exact Hin.
Qed.

Lemma last_occ_ge (c : Z) C D X Y :
  C ++ c :: D = X ++ c :: Y -> ~ In c D -> (length X <= length C)%nat.
Proof.
  intros H HD.
  assert (Hr : rev D ++ c :: rev C = rev Y ++ c :: rev X).
  { apply (f_equal (@rev Z)) in H. rewrite !rev_app_distr in H. simpl in H.
    rewrite <- !app_assoc in H. exact H. }
  pose proof (first_occ_le c (rev D) (rev C) (rev Y) (rev X) Hr) as Hle.
  rewrite <- in_rev in Hle. specialize (Hle HD). rewrite !length_rev in Hle.
  apply (f_equal (@length Z)) in H. rewrite !length_app in H. simpl in H. lia.
Qed.

Lemma prefix_split (x : Z) A B C E :
  A ++ x :: B = C ++ E -> (length A < length C)%nat -> exists M, C = A ++ x :: M.
Proof.
  revert C. induction A as [|a A IH]; intros C H Hl.
  - destruct C as [|c C]; simpl in *; [lia|]. injection H as -> _. exists C. reflexivity.
  - destruct C as [|c C]; simpl in *; [lia|]. injection H as -> H.
    destruct (IH C H ltac:(lia)) as [M ->]. exists M. reflexivity.
Qed.

(** X14: [extractJsonSnippet] returns the cleaned text from its first [{] to
    its last [}], and returns [null] exactly when the cleaned text has no
    [{] followed later by a [}]. *)
Theorem extractJsonSnippet_spec response :
  match extractJsonSnippet response with
  | Some t => exists pre mid post,
      cleanResponse response = pre ++ [123] ++ mid ++ [125] ++ post /\
      t = [123] ++ mid ++ [125] /\ ~ In 123 pre /\ ~ In 125 post
  | None => ~ exists pre mid post,
      cleanResponse response = pre ++ [123] ++ mid ++ [125] ++ post
  end.
Proof.
  unfold extractJsonSnippet. generalize (cleanResponse response) as s. intros s.
  destruct (indexOf_spec 123 s) as [[Hs1 Hs2]|(A & B & HA & HnA & Hs)];
  [rewrite Hs1; simpl; intros (pre & mid & post & Heq); apply Hs2; rewrite Heq;
   apply in_or_app; right; left; reflexivity|].
  destruct (lastIndexOf_spec 125 s) as [[He1 He2]|(C & D & HC & HnD & He)];
  [rewrite He1, orb_true_r; simpl; intros (pre & mid & post & Heq); apply He2; rewrite Heq;
   apply in_or_app; right; right; apply in_or_app; right; left; reflexivity|].
  rewrite Hs, He.
  destruct (Z.of_nat (length A) =? -1) eqn:E1; [lia|].
  destruct (Z.of_nat (length C) =? -1) eqn:E2; [lia|]. cbn [orb].
  destruct (Z.leb_spec (Z.of_nat (length C)) (Z.of_nat (length A))) as [Hle|Hlt].
  - intros (pre & mid & post & Heq).
    assert (H1 : (length A <= length pre)%nat).
    { apply (first_occ_le 123 A B pre (mid ++ [125] ++ post)). rewrite <- HA, Heq. reflexivity. exact HnA. }
    assert (H2 : (length (pre ++ 123%Z :: mid) <= length C)%nat).
    { apply (last_occ_ge 125 C D (pre ++ 123 :: mid) post). rewrite <- HC, Heq.
      simpl. rewrite <- app_assoc. reflexivity. exact HnD. }
    rewrite length_app in H2. simpl in H2. lia.
  - assert (HAC : A ++ 123 :: B = C ++ 125 :: D) by (rewrite <- HA; exact HC).
    destruct (prefix_split 123 A B C (125 :: D) HAC ltac:(lia)) as [M HM].
    exists A, M, D. split; [rewrite HC, HM; simpl; rewrite <- !app_assoc; reflexivity|].
    split; [|split; assumption].
    assert (Hs' : s = A ++ 123 :: M ++ 125 :: D) by (rewrite HC, HM; simpl; rewrite <- app_assoc; reflexivity).
    assert (HlC : length C = (length A + S (length M))%nat) by (rewrite HM, length_app; reflexivity).
    unfold slice. rewrite Nat2Z.id, HlC.
    replace (Z.to_nat (Z.of_nat (length A + S (length M)) + 1 - Z.of_nat (length A)))
      with (S (S (length M))) by lia.
    rewrite Hs', skipn_app, skipn_all, Nat.sub_diag. cbn [skipn app firstn].
    rewrite firstn_app, firstn_all2 by lia. replace (S (length M) - length M)%nat with 1%nat by lia.
    reflexivity.
Qed.

Lemma dropWhile_head (p : Z -> bool) l :
  match dropWhile p l with [] => True | x :: _ => p x = false end.
Proof.
  induction l as [|x l IH]; simpl; [exact I|]. destruct (p x) eqn:E; [exact IH|exact E].
Qed.

Lemma dropWhile_snoc (p : Z -> bool) l x :
  p x = false -> dropWhile p (l ++ [x]) = dropWhile p l ++ [x].
Proof.
  intros Hx. induction l as [|y l IH]; simpl; [rewrite Hx; reflexivity|].
  destruct (p y); [exact IH|reflexivity].
Qed.

Lemma trim_ok s : trim s <> [] -> trimmed_ok (trim s).
Proof.
  unfold trim. pose proof (dropWhile_head isSpace s) as H1.
  destruct (dropWhile isSpace s) as [|x t]; [simpl; congruence|].
  intros Hne. cbn [rev]. rewrite dropWhile_snoc by exact H1.
  rewrite rev_app_distr. cbn [rev app].
  split; [discriminate|]. split; [exact H1|].
  pose proof (dropWhile_head isSpace (rev t)) as H2.
  destruct (dropWhile isSpace (rev t)) as [|y r] eqn:E; [exact H1|].
  cbn [rev].
  rewrite app_comm_cons, List.last_last. exact H2.
Qed.

Lemma trimmedStrings_ok xs : Forall trimmed_ok (trimmedStrings xs).
Proof.
  unfold trimmedStrings. apply List.Forall_forall. intros p Hp.
  apply List.filter_In in Hp as [Hp Hl]. apply in_map_iff in Hp as (s & <- & _).
  apply trim_ok. intros He. rewrite He in Hl. discriminate.
Qed.

(** X15: every path pattern [normalizeMatchFilter] keeps is non-empty and
    starts and ends with a non-space unit, every extension starts with a
    dot and ends with a non-space unit, and the event types are never an
    empty list. *)
Theorem normalizeMatchFilter_shape j :
  let nf := normalizeMatchFilter j in
  Forall trimmed_ok (opt_list (nf_pathIncludes nf)) /\
  Forall trimmed_ok (opt_list (nf_pathExcludes nf)) /\
  Forall (fun e => startsWith e (u ".") = true /\ isSpace (List.last e 0) = false)
         (opt_list (nf_extensions nf)) /\
  nf_eventTypes nf <> Some [].
Proof.
  destruct j as [| | | |xs|fields]; cbn; try (repeat split; constructor || discriminate).
  repeat split.
  - destruct (jArray _); cbn; [apply trimmedStrings_ok|constructor].
  - destruct (jArray _); cbn; [apply trimmedStrings_ok|constructor].
  - destruct (jArray _) as [xs|]; cbn; [|constructor].
    apply List.Forall_forall. intros e He. apply in_map_iff in He as (p & <- & Hp).
    pose proof (proj1 (List.Forall_forall _ _) (trimmedStrings_ok xs) p Hp) as (Hne & _ & Hlast).
    match goal with |- context [if startsWith p ?d then _ else _] =>
      destruct (startsWith p d) eqn:E end; [split; assumption|].
    destruct p as [|c p']; [congruence|]. split; [reflexivity|exact Hlast].
  - destruct (jArray _); [|discriminate]. destruct (flat_map _ _); discriminate.
Qed.

Lemma first_count_pos pats text n : first_count pats text = Some n -> 0 < n.
Proof.
  induction pats as [|p pats IH]; simpl; [discriminate|].
  destruct (exec p text 0); [|exact IH].
  destruct (0 <? _) eqn:E; [intros [= <-]; apply Z.ltb_lt; exact E|exact IH].
Qed.

Lemma parseWindowSeconds_pos text w : parseWindowSeconds text = Some w -> 0 < w.
Proof.
  unfold parseWindowSeconds. destruct (exec _ _ _); [|discriminate]. cbv zeta.
  destruct (_ <=? 0) eqn:E; [discriminate|]. apply Z.leb_gt in E.
  destruct (_ || _); [intros [= <-]; lia|]. destruct (startsWith _ _); intros [= <-]; lia.
Qed.

(** X5: every path fragment of the intent is non-empty, free of whitespace
    and ends with a slash; every extension starts with a dot; a count or
    window found in the condition is positive. *)
Theorem extractIntent_shape c :
  let intent := extractIntent c in
  Forall (fun p => p <> [] /\ Forall (fun x => isSpace x = false) p /\ last p = Some 47)
         (ri_pathIncludes intent) /\
  Forall (fun e => startsWith e (u ".") = true) (ri_extensions intent) /\
  (forall n, ri_count intent = Some n -> 0 < n) /\
  (forall w, ri_windowSeconds intent = Some w -> 0 < w).
Proof.
  intros intent. split; [|split; [apply intent_extensions_dot|split]].
  - eapply Forall_impl; [apply intent_pathIncludes_ok|]. intros p [Hp Hl]. cbv beta in *.
    split; [intros ->; discriminate|]. split; [|exact Hl].
    eapply Forall_impl; [exact Hp|]. intros x Hx. unfold nonspace in Hx. apply negb_true_iff. exact Hx.
  - intros n. unfold intent, extractIntent. cbv zeta. cbn [ri_count]. apply first_count_pos.
  - intros w. unfold intent, extractIntent. cbv zeta. cbn [ri_windowSeconds]. apply parseWindowSeconds_pos.
Qed.

Lemma applyAllowed_flag r updates :
  snd (applyAllowed r updates) =
    isSome (up_name updates) || isSome (up_description updates) || isSome (up_enabled updates) /\
  (snd (applyAllowed r updates) = false -> fst (applyAllowed r updates) = r).
Proof.
  unfold applyAllowed.
  destruct (up_name updates), (up_description updates), (up_enabled updates); simpl;
  split; try reflexivity; discriminate.
Qed.

(** X13: [updateRule] returns [true] exactly when some rule has the id and
    the updates carry a name, description or enabled field; when it returns
    [false] the rule list is unchanged. *)
Theorem updateRule_result id updates rules :
  let '(changed, rules') := updateRule id updates rules in
  (changed = true <-> In id (map r_id rules) /\
     (up_name updates <> None \/ up_description updates <> None \/ up_enabled updates <> None)) /\
  (changed = false -> rules' = rules).
Proof.
  assert (Hflag : isSome (up_name updates) || isSome (up_description updates)
                  || isSome (up_enabled updates) = true <->
                  up_name updates <> None \/ up_description updates <> None \/ up_enabled updates <> None).
  { destruct (up_name updates), (up_description updates), (up_enabled updates); simpl;
    intuition congruence. }
  unfold updateRule.
  assert (H : match update_first id (fun r => applyAllowed r updates) rules with
    | None => ~ In id (map r_id rules)
    | Some (rules', c) => In id (map r_id rules) /\
        c = isSome (up_name updates) || isSome (up_description updates) || isSome (up_enabled updates) /\
        (c = false -> rules' = rules)
    end).
  { induction rules as [|r rs IH]; simpl; [tauto|].
    destruct (jsstr_eqb (r_id r) id) eqn:E.
    - pose proof (applyAllowed_flag r updates) as [H1 H2].
      destruct (applyAllowed r updates) as [r' c]. cbn [fst snd] in *.
      apply jsstr_eqb_spec in E. split; [left; exact E|]. split; [exact H1|].
      intros Hc. rewrite (H2 Hc). reflexivity.
    - destruct (update_first id _ rs) as [[rs' c]|].
      + destruct IH as (H1 & H2 & H3). split; [right; exact H1|]. split; [exact H2|].
        intros Hc. rewrite (H3 Hc). reflexivity.
      + intros [Heq|Hin]; [|exact (IH Hin)]. rewrite Heq, jsstr_eqb_refl in E. discriminate. }
  destruct (update_first id _ rules) as [[rules' c]|].
  - destruct H as (H1 & H2 & H3). split; [|exact H3]. rewrite <- Hflag, <- H2. tauto.
  - split; [split; [discriminate|tauto]|reflexivity].
Qed.

Lemma pushRecent_fold_witness :
  Z.of_nat (length [ex_match 0]) <= 2 /\
  fold_left (fun r m => pushRecent 2 m r) [ex_match 1; ex_match 2] [ex_match 0] =
  skipn (length ([ex_match 0] ++ [ex_match 1; ex_match 2]) - Z.to_nat 2)
        ([ex_match 0] ++ [ex_match 1; ex_match 2]).
Proof. split; [simpl; lia|]. apply pushRecent_fold. simpl. lia. Defined.

Lemma evaluateEvent_accepted_accounting_witness :
  (fun _ : jsstr => true) (resolve_example (u "/srv/watched") (ev_path ex_event)) = true /\
  (let enabled := List.filter r_enabled (storeRules ex_engine) in
   let '(ms, st') := evaluateEvent (fun _ => true) resolve_example (u "/srv/watched")
                       (fun _ => 1000) ex_event ex_engine in
   eventsObserved (stats st') = eventsObserved (stats ex_engine) + 1 /\
   rulesEvaluated (stats st') = rulesEvaluated (stats ex_engine) + Z.of_nat (length enabled) /\
   matches (stats st') = matches (stats ex_engine) + Z.of_nat (length ms) /\
   recentMatches st' =
     fold_left (fun r m => pushRecent (recentMatchLimit ex_engine) m r) ms (recentMatches ex_engine) /\
   map r_id (storeRules st') = map r_id (storeRules ex_engine) /\
   totalMatches (storeRules st') = totalMatches (storeRules ex_engine) + Z.of_nat (length ms) /\
   sublist (map m_ruleId ms) (map r_id enabled)).
Proof.
  split; [reflexivity|].
  exact (evaluateEvent_accepted_accounting (fun _ => true) resolve_example (u "/srv/watched")
           (fun _ => 1000) ex_event ex_engine eq_refl).
Defined.

Lemma validateCompiledRuleWithIntent_valid_witness :
  let rule := mkCompiled RTThreshold (mkMatch None None (Some [u ".ts"]) None) (Some 60) (Some 5) in
  let c := u "5 or more .ts files within 60 seconds" in
  vr_valid (validateCompiledRuleWithIntent rule c) = true /\
  (let intent := extractIntent c in
   vr_valid (validateCompiledRule rule) = true /\
   (ri_count intent <> None -> ri_windowSeconds intent <> None ->
    cr_type rule = RTThreshold /\ cr_count rule = ri_count intent /\
    cr_windowSeconds rule = ri_windowSeconds intent) /\
   (ri_eventTypes intent <> [] ->
    opt_list (eventTypes (cr_match rule)) <> [] /\
    forall e, In e (opt_list (eventTypes (cr_match rule))) -> In e (ri_eventTypes intent)) /\
   (ri_extensions intent <> [] ->
    (forall ext, In ext (ri_extensions intent) ->
       exists v, In v (opt_list (extensions (cr_match rule))) /\ toLowerCase v = toLowerCase ext) /\
    (forall v, In v (opt_list (extensions (cr_match rule))) ->
       exists ext, In ext (ri_extensions intent) /\ toLowerCase ext = toLowerCase v)) /\
   (ri_pathIncludes intent <> [] ->
    (forall inc, In inc (ri_pathIncludes intent) ->
       exists p, In p (opt_list (pathIncludes (cr_match rule))) /\
                 includes (toLowerCase p) (toLowerCase inc) = true) /\
    (forall p, In p (opt_list (pathIncludes (cr_match rule))) ->
       exists inc, In inc (ri_pathIncludes intent) /\
                   includes (toLowerCase p) (toLowerCase inc) = true))).
Proof.
  intros rule c. assert (H : vr_valid (validateCompiledRuleWithIntent rule c) = true)
    by (vm_compute; reflexivity).
  split; [exact H|]. exact (validateCompiledRuleWithIntent_valid rule c H).
Defined.

Lemma evaluateRule_window_bound_witness :
  r_kind ex_threshold_rule = ThresholdRule 60 3 /\
  (let '(m, tw') := evaluateRule ex_event ex_threshold_rule 1000 (thresholdWindows ex_engine) in
   (forall k, k <> r_id ex_threshold_rule -> tw' !! k = thresholdWindows ex_engine !! k) /\
   (matchesFilter ex_event (r_match ex_threshold_rule) = false -> m = None /\ tw' = thresholdWindows ex_engine) /\
   (matchesFilter ex_event (r_match ex_threshold_rule) = true ->
    exists stored, tw' = <[r_id ex_threshold_rule := stored]> (thresholdWindows ex_engine) /\
    ((m <> None /\ stored = []) \/
     (m = None /\ Z.of_nat (length stored) < 3 /\
      forall t, In t stored ->
        1000 - t <= 60 * 1000 /\
        In t (default [] (thresholdWindows ex_engine !! r_id ex_threshold_rule) ++ [1000]))))).
Proof.
  split; [reflexivity|].
  exact (evaluateRule_window_bound ex_event ex_threshold_rule 60 3 1000 (thresholdWindows ex_engine) eq_refl).
Defined.

Lemma addRule_getRule_witness :
  ~ In (u "rule_new") (map r_id (storeRules ex_engine)) /\
  (let '(rule, rules') := addRule (u "rule_new") 5000 ex_params (storeRules ex_engine) in
   getRule (u "rule_new") rules' = Some rule /\
   r_id rule = u "rule_new" /\ r_enabled rule = true /\ r_matchCount rule = 0 /\
   r_lastMatched rule = None /\ r_originalCondition rule = Some (ap_condition ex_params) /\
   forall k, k <> u "rule_new" -> getRule k rules' = getRule k (storeRules ex_engine)).
Proof.
  assert (H : ~ In (u "rule_new") (map r_id (storeRules ex_engine))).
  { intros H. apply str_mem_In in H. vm_compute in H. discriminate. }
  split; [exact H|]. exact (addRule_getRule (u "rule_new") 5000 ex_params (storeRules ex_engine) H).
Defined.

Lemma deleteRule_addRule_witness :
  ~ In (u "rule_new") (map r_id (storeRules ex_engine)) /\
  deleteRule (u "rule_new") (snd (addRule (u "rule_new") 5000 ex_params (storeRules ex_engine))) =
  (true, storeRules ex_engine).
Proof.
  assert (H : ~ In (u "rule_new") (map r_id (storeRules ex_engine))).
  { intros H. apply str_mem_In in H. vm_compute in H. discriminate. }
  split; [exact H|]. exact (deleteRule_addRule (u "rule_new") 5000 ex_params (storeRules ex_engine) H).
Defined.

Lemma findDuplicateRule_after_addRule_witness :
  let compiled := ap_compiled ex_params in
  (toLowerCase (trim (ap_condition ex_params)) <> [] \/
   (cr_type compiled = RTThreshold /\ cr_windowSeconds compiled <> None /\ cr_count compiled <> None) \/
   (cr_type compiled = RTPattern /\ cr_windowSeconds compiled = None /\ cr_count compiled = None)) /\
  findDuplicateRule (fun _ _ => Eq) (ap_condition ex_params) compiled
    (snd (addRule (u "rule_new") 5000 ex_params (storeRules ex_engine))) <> None.
Proof.
  intros compiled.
  assert (H : toLowerCase (trim (ap_condition ex_params)) <> [] \/
   (cr_type compiled = RTThreshold /\ cr_windowSeconds compiled <> None /\ cr_count compiled <> None) \/
   (cr_type compiled = RTPattern /\ cr_windowSeconds compiled = None /\ cr_count compiled = None)).
  { left. vm_compute. discriminate. }
  split; [exact H|].
  exact (findDuplicateRule_after_addRule (fun _ _ => Eq) (u "rule_new") 5000 ex_params
           (storeRules ex_engine) H).
Defined.
